(** * gorutin: the fan-out / fan-in executor [concurrent.Execute]

    A small-step interleaving model of [src/concurrent/concurrent.go].
    Every goroutine of [Execute] (the caller, one worker per input
    channel, the distributor, the goroutine waiting on the WaitGroup)
    has a program counter; a step of the model is one step of one
    goroutine.  Channels are unbuffered, so a send and the matching
    receive are one joint step, attributed to the sender.  Panics stop
    the whole program, as in Go.  Go's [int] is modelled as [Z]: the
    code compares it, takes a remainder by it and counts up to it, none
    of which can overflow.  Two limits of the Go runtime and of package
    [sync], neither of them part of the repository, bound the worker
    count the code can serve: the longest slice of channels [make]
    accepts, and the 32 bits in which a [sync.WaitGroup] keeps its
    counter. *)

From Stdlib Require Import ZArith Lia.
From stdpp Require Import base list.

(** ** Run-time panics the code can raise *)

Inductive panic : Type :=
  | PanicMakeSliceLen        (* make([]T, n) with n < 0 *)
  | PanicDivideByZero        (* i % 0 *)
  | PanicIndexOutOfRange     (* inputChannels[c] with c out of range *)
  | PanicSendOnClosed        (* ch <- v on a closed channel *)
  | PanicCloseOfClosed       (* close(ch) on a closed channel *)
  | PanicNegativeWaitGroup.  (* wg.Done() below zero *)

(** ** Channels *)

Inductive chan : Type :=
  | Open
  | Closed.

(** ** Program counters *)

(** The caller's goroutine: lines 21-29 (spawn loop, at index [i]),
    line 32 (go distributor), line 42 (go waiter), lines 49-51 (drain
    loop), line 53 (returned). *)
Inductive mstate : Type :=
  | MSpawn (i : nat)
  | MSpawnDist
  | MSpawnWaiter
  | MRecv
  | MRet.

(** The distributor, lines 32-40: not started yet, at iteration [i] of
    the loop over [inputs], at iteration [j] of the loop that closes the
    input channels. *)
Inductive dstate : Type :=
  | DUnspawned
  | DSend (i : nat)
  | DClose (j : nat).

(** The goroutine of lines 42-45. *)
Inductive tstate : Type :=
  | TUnspawned
  | TWait
  | TClose
  | TDone.

(** ** Limits of the runtime

    On the 64-bit platforms (linux/amd64 among them) the runtime
    allocates at most [2^48] bytes at once; a channel value takes 8
    bytes in a slice, so [make([](chan T), n)] panics with "len out of
    range" for [n] above [2^45], as for a negative [n]. *)
Definition maxChanSliceLen : Z := 35184372088832%Z.

(** [sync.WaitGroup] keeps its counter in the upper 32 bits of a 64-bit
    word and reads it as a signed 32-bit integer: after [wg.Add(delta)]
    on a fresh WaitGroup the counter is [int32 delta], and [Add] panics
    when that is negative. *)
Definition int32 (z : Z) : Z :=
  ((z + 2147483648) mod 4294967296 - 2147483648)%Z.

(** The transformations of the spec's scenarios. *)
Definition double (x : Z) : Z := (2 * x)%Z.

Definition sq (x : Z) : Z := (x * x)%Z.

Section Execute.

Context {TypeIn TypeOut : Type}.

(** A worker, lines 23-28: not started, waiting in [range inputChan],
    holding a received input, holding [process(input)] to send on the
    output channel, out of the loop with [wg.Done()] deferred, finished. *)
Inductive wstate : Type :=
  | WUnspawned
  | WRecv
  | WGot (x : TypeIn)
  | WSend (y : TypeOut)
  | WExit
  | WDone.

(** ** Global state

    An unbuffered channel holds no value, so its state is whether it is
    closed.  [calls] and [delivered] are history variables: [calls] lists
    every invocation of [process] as (worker, argument), [delivered]
    lists every hand-off of the distributor as (input position,
    worker).  No step reads them. *)
Record state : Type := mkState {
  main : mstate;
  outputs : list TypeOut;
  workers : list wstate;
  inputChannels : list chan;
  dist : dstate;
  waiter : tstate;
  wg : Z;
  outputChannel : chan;
  panicked : option panic;
  calls : list (nat * TypeIn);
  delivered : list (nat * nat)
}.

Definition set_main (m : mstate) (s : state) : state :=
  mkState m (outputs s) (workers s) (inputChannels s) (dist s) (waiter s)
          (wg s) (outputChannel s) (panicked s) (calls s) (delivered s).

Definition set_outputs (o : list TypeOut) (s : state) : state :=
  mkState (main s) o (workers s) (inputChannels s) (dist s) (waiter s)
          (wg s) (outputChannel s) (panicked s) (calls s) (delivered s).

Definition set_workers (ws : list wstate) (s : state) : state :=
  mkState (main s) (outputs s) ws (inputChannels s) (dist s) (waiter s)
          (wg s) (outputChannel s) (panicked s) (calls s) (delivered s).

Definition set_inputChannels (c : list chan) (s : state) : state :=
  mkState (main s) (outputs s) (workers s) c (dist s) (waiter s)
          (wg s) (outputChannel s) (panicked s) (calls s) (delivered s).

Definition set_dist (d : dstate) (s : state) : state :=
  mkState (main s) (outputs s) (workers s) (inputChannels s) d (waiter s)
          (wg s) (outputChannel s) (panicked s) (calls s) (delivered s).

Definition set_waiter (t : tstate) (s : state) : state :=
  mkState (main s) (outputs s) (workers s) (inputChannels s) (dist s) t
          (wg s) (outputChannel s) (panicked s) (calls s) (delivered s).

Definition set_wg (c : Z) (s : state) : state :=
  mkState (main s) (outputs s) (workers s) (inputChannels s) (dist s) (waiter s)
          c (outputChannel s) (panicked s) (calls s) (delivered s).

Definition set_outputChannel (b : chan) (s : state) : state :=
  mkState (main s) (outputs s) (workers s) (inputChannels s) (dist s) (waiter s)
          (wg s) b (panicked s) (calls s) (delivered s).

Definition set_calls (c : list (nat * TypeIn)) (s : state) : state :=
  mkState (main s) (outputs s) (workers s) (inputChannels s) (dist s) (waiter s)
          (wg s) (outputChannel s) (panicked s) c (delivered s).

Definition set_delivered (d : list (nat * nat)) (s : state) : state :=
  mkState (main s) (outputs s) (workers s) (inputChannels s) (dist s) (waiter s)
          (wg s) (outputChannel s) (panicked s) (calls s) d.

Definition raise (p : panic) (s : state) : state :=
  mkState (main s) (outputs s) (workers s) (inputChannels s) (dist s) (waiter s)
          (wg s) (outputChannel s) (Some p) (calls s) (delivered s).

(** ** The program *)

Variable numOfRoutines : Z.
Variable inputs : list TypeIn.
Variable process : TypeIn → TypeOut.

(** Lines 11-18 run before any goroutine exists: [make] of the channel
    slice, which panics on a negative length and on one above
    [maxChanSliceLen]; one channel per index; the output channel;
    [wg.Add(numOfRoutines)], which panics when the 32-bit counter comes
    out negative.  Below these limits memory is taken to be sufficient
    for [numOfRoutines] channels and goroutines. *)
Definition init : state :=
  if ((numOfRoutines <? 0) || (maxChanSliceLen <? numOfRoutines))%Z
  then mkState (MSpawn 0) [] [] [] DUnspawned TUnspawned 0%Z Open
               (Some PanicMakeSliceLen) [] []
  else if (int32 numOfRoutines <? 0)%Z
  then mkState (MSpawn 0) []
               (replicate (Z.to_nat numOfRoutines) WUnspawned)
               (replicate (Z.to_nat numOfRoutines) Open)
               DUnspawned TUnspawned (int32 numOfRoutines) Open
               (Some PanicNegativeWaitGroup) [] []
  else mkState (MSpawn 0) []
               (replicate (Z.to_nat numOfRoutines) WUnspawned)
               (replicate (Z.to_nat numOfRoutines) Open)
               DUnspawned TUnspawned (int32 numOfRoutines) Open None [] [].

(** The caller: the spawn loop of line 21, the two [go] statements, and
    the [range outputChannel] loop, which ends once the channel is
    closed.  Receiving a value is the sending worker's step. *)
Definition step_main (s : state) : option state :=
  match main s with
  | MSpawn i =>
      if (Z.of_nat i <? numOfRoutines)%Z
      then Some (set_main (MSpawn (S i)) (set_workers (<[i:=WRecv]> (workers s)) s))
      else Some (set_main MSpawnDist s)
  | MSpawnDist => Some (set_main MSpawnWaiter (set_dist (DSend 0) s))
  | MSpawnWaiter => Some (set_main MRecv (set_waiter TWait s))
  | MRecv =>
      match outputChannel s with
      | Closed => Some (set_main MRet s)
      | Open => None
      end
  | MRet => None
  end.

(** The distributor.  At iteration [i] it evaluates [i % numOfRoutines]
    (Go's truncated remainder, [Z.rem]) and sends [inputs[i]] on that
    channel; the send completes when the worker owning the channel is
    waiting in its [range].  Then it closes every input channel. *)
Definition step_dist (s : state) : option state :=
  match dist s with
  | DUnspawned => None
  | DSend i =>
      match inputs !! i with
      | None => Some (set_dist (DClose 0) s)
      | Some x =>
          if (numOfRoutines =? 0)%Z then Some (raise PanicDivideByZero s)
          else
            let channel := Z.rem (Z.of_nat i) numOfRoutines in
            if (channel <? 0)%Z then Some (raise PanicIndexOutOfRange s)
            else
              match inputChannels s !! Z.to_nat channel with
              | None => Some (raise PanicIndexOutOfRange s)
              | Some Closed => Some (raise PanicSendOnClosed s)
              | Some Open =>
                  match workers s !! Z.to_nat channel with
                  | Some WRecv =>
                      Some (set_dist (DSend (S i))
                             (set_workers (<[Z.to_nat channel:=WGot x]> (workers s))
                               (set_delivered (delivered s ++ [(i, Z.to_nat channel)]) s)))
                  | _ => None
                  end
              end
      end
  | DClose j =>
      match inputChannels s !! j with
      | None => None
      | Some Closed => Some (raise PanicCloseOfClosed s)
      | Some Open =>
          Some (set_dist (DClose (S j))
                 (set_inputChannels (<[j:=Closed]> (inputChannels s)) s))
      end
  end.

(** Worker [w] owns [inputChannels[w]].  In [range inputChan] it leaves
    the loop once the channel is closed; with an input in hand it calls
    [process]; with a result in hand it sends it on the output channel,
    which completes when the caller is in its drain loop; on the way out
    the deferred [wg.Done()] runs. *)
Definition step_worker (w : nat) (s : state) : option state :=
  match workers s !! w with
  | Some WRecv =>
      match inputChannels s !! w with
      | Some Closed => Some (set_workers (<[w:=WExit]> (workers s)) s)
      | _ => None
      end
  | Some (WGot x) =>
      Some (set_workers (<[w:=WSend (process x)]> (workers s))
             (set_calls (calls s ++ [(w, x)]) s))
  | Some (WSend y) =>
      match outputChannel s with
      | Closed => Some (raise PanicSendOnClosed s)
      | Open =>
          match main s with
          | MRecv =>
              Some (set_workers (<[w:=WRecv]> (workers s))
                     (set_outputs (outputs s ++ [y]) s))
          | _ => None
          end
      end
  | Some WExit =>
      if (wg s - 1 <? 0)%Z then Some (raise PanicNegativeWaitGroup s)
      else Some (set_workers (<[w:=WDone]> (workers s)) (set_wg (wg s - 1)%Z s))
  | Some WDone | Some WUnspawned | None => None
  end.

(** Lines 42-45: [wg.Wait()] returns once the counter is zero, then the
    output channel is closed. *)
Definition step_waiter (s : state) : option state :=
  match waiter s with
  | TUnspawned => None
  | TWait => if (wg s =? 0)%Z then Some (set_waiter TClose s) else None
  | TClose =>
      match outputChannel s with
      | Closed => Some (raise PanicCloseOfClosed s)
      | Open => Some (set_waiter TDone (set_outputChannel Closed s))
      end
  | TDone => None
  end.

(** A scheduler picks a goroutine; [step] is [None] when that goroutine
    is blocked or finished, or when the program has panicked. *)
Inductive action : Type :=
  | AMain
  | ADist
  | AWaiter
  | AWorker (w : nat).

Definition step (a : action) (s : state) : option state :=
  match panicked s with
  | Some _ => None
  | None =>
      match a with
      | AMain => step_main s
      | ADist => step_dist s
      | AWaiter => step_waiter s
      | AWorker w => step_worker w s
      end
  end.

(** ** Runs *)

Inductive reachable : state → Prop :=
  | reach_init : reachable init
  | reach_step a s s' : reachable s → step a s = Some s' → reachable s'.

(** [inevitably Q s]: every run from [s] reaches a state satisfying [Q]
    after finitely many steps, and cannot block before it does. *)
Inductive inevitably (Q : state → Prop) : state → Prop :=
  | inev_now s : Q s → inevitably Q s
  | inev_later s :
      (∃ a s', step a s = Some s') →
      (∀ a s', step a s = Some s' → inevitably Q s') →
      inevitably Q s.

(** The call returns normally, whatever the schedule, and [P] holds of
    the state in which the caller holds the result. *)
Definition returns_with (P : state → Prop) : Prop :=
  inevitably (λ s, main s = MRet ∧ panicked s = None ∧ P s) init ∧
  (∀ s, reachable s → main s = MRet → P s).

(** The call fails, whatever the schedule: the program ends in a panic
    and the caller is never handed a result. *)
Definition reports_failure : Prop :=
  inevitably (λ s, panicked s ≠ None) init ∧
  (∀ s, reachable s → main s ≠ MRet).

(** Running a given schedule; a blocked choice is skipped. *)
Fixpoint run (sched : list action) (s : state) : state :=
  match sched with
  | [] => s
  | a :: sched' =>
      match step a s with
      | Some s' => run sched' s'
      | None => run sched' s
      end
  end.

(** A fair round-robin scheduler: in every round each goroutine is
    offered one step. *)
Definition round : list action :=
  AMain :: ADist :: AWaiter :: map AWorker (seq 0 (Z.to_nat numOfRoutines)).

Fixpoint rounds (k : nat) : list action :=
  match k with
  | O => []
  | S k' => round ++ rounds k'
  end.

(** ** Quantities the invariants speak about *)

Local Abbreviation N := (Z.to_nat numOfRoutines).
Local Abbreviation M := (length inputs).

(** Number of inputs the distributor has handed off, and number of
    input channels it has closed. *)
Definition dpos (d : dstate) : nat :=
  match d with
  | DUnspawned => 0
  | DSend i => i
  | DClose _ => M
  end.

Definition dclosed (d : dstate) : nat :=
  match d with
  | DClose j => j
  | _ => 0
  end.

(** What a worker has in hand: an input not yet passed to [process],
    an output not yet received by the caller. *)
Definition holding (ws : wstate) : list TypeIn :=
  match ws with
  | WGot x => [x]
  | _ => []
  end.

Definition inflight (ws : wstate) : list TypeOut :=
  match ws with
  | WGot x => [process x]
  | WSend y => [y]
  | _ => []
  end.

(** 1 for a worker that has not yet run [wg.Done()]. *)
Definition alive (ws : wstate) : nat :=
  match ws with
  | WDone => 0
  | _ => 1
  end.

(** The arguments worker [w] passed to [process], oldest first. *)
Definition calls_of (w : nat) (cs : list (nat * TypeIn)) : list TypeIn :=
  (filter (λ p, p.1 = w) cs).*2.

(** The inputs at positions [i < d] with [i mod N = w], in input order. *)
Definition assigned (w d : nat) : list TypeIn :=
  omap (λ i, if decide (i mod N = w) then inputs !! i else None) (seq 0 d).

(** ** Termination measure *)

Definition mrank (m : mstate) : nat :=
  match m with
  | MSpawn i => (N - i) + 4
  | MSpawnDist => 3
  | MSpawnWaiter => 2
  | MRecv => 1
  | MRet => 0
  end.

Definition drank (nchan : nat) (d : dstate) : nat :=
  match d with
  | DUnspawned => 3 * M + nchan + 1
  | DSend i => 3 * (M - i) + nchan + 1
  | DClose j => nchan - j
  end.

Definition trank (t : tstate) : nat :=
  match t with
  | TUnspawned | TWait => 2
  | TClose => 1
  | TDone => 0
  end.

Definition wrank (ws : wstate) : nat :=
  match ws with
  | WUnspawned | WRecv => 2
  | WGot _ => 4
  | WSend _ => 3
  | WExit => 1
  | WDone => 0
  end.

Definition measure (s : state) : nat :=
  mrank (main s) + drank (length (inputChannels s)) (dist s) + trank (waiter s)
  + sum_list_with wrank (workers s).

(** ** Invariants *)

Definition worker_ok (m : mstate) (d : dstate) (w : nat) (ws : wstate) : Prop :=
  match ws with
  | WUnspawned => ∃ i, m = MSpawn i ∧ i ≤ w
  | WRecv => True
  | WGot _ | WSend _ => d ≠ DUnspawned
  | WExit | WDone => w < dclosed d
  end.

Definition waiter_ok (s : state) : Prop :=
  match waiter s with
  | TUnspawned | TWait => outputChannel s = Open
  | TClose => outputChannel s = Open ∧ wg s = 0%Z
  | TDone => outputChannel s = Closed ∧ wg s = 0%Z
  end.

Definition main_ok (s : state) : Prop :=
  match main s with
  | MSpawn _ | MSpawnDist => dist s = DUnspawned ∧ waiter s = TUnspawned
  | MSpawnWaiter => dist s ≠ DUnspawned ∧ waiter s = TUnspawned
  | MRecv => dist s ≠ DUnspawned ∧ waiter s ≠ TUnspawned
  | MRet => dist s ≠ DUnspawned ∧ waiter s = TDone
  end.

(** Control: no panic, the WaitGroup counts the workers that have not
    run [wg.Done()], channel [k] is closed exactly when the closing loop
    has passed it, a worker leaves its loop only after its channel is
    closed and takes an input in hand only once the distributor runs,
    the output channel is closed only when the counter is zero. *)
Record ctrl_inv (s : state) : Prop := {
  ci_panic : panicked s = None;
  ci_lenw : length (workers s) = N;
  ci_lenc : length (inputChannels s) = N;
  ci_wg : wg s = Z.of_nat (sum_list_with alive (workers s));
  ci_closed : ∀ k c, inputChannels s !! k = Some c →
              c = if bool_decide (k < dclosed (dist s)) then Closed else Open;
  ci_dist : dpos (dist s) ≤ M ∧ dclosed (dist s) ≤ N;
  ci_worker : ∀ w ws, workers s !! w = Some ws → worker_ok (main s) (dist s) w ws;
  ci_waiter : waiter_ok s;
  ci_main : main_ok s
}.

(** Data: every input handed off so far is either in a worker's hand or
    accounted for in [calls], and its image is either in a worker's hand
    or in [outputs]; hand-offs follow the round-robin rule; each worker
    sees its inputs in input order. *)
Record data_inv (s : state) : Prop := {
  di_calls : (calls s).*2 ++ flat_map holding (workers s) ≡ₚ take (dpos (dist s)) inputs;
  di_outputs :
    outputs s ++ flat_map inflight (workers s) ≡ₚ process <$> take (dpos (dist s)) inputs;
  di_delivered : delivered s = (λ i, (i, i mod N)) <$> seq 0 (dpos (dist s));
  di_fifo : ∀ w ws, workers s !! w = Some ws →
            calls_of w (calls s) ++ holding ws = assigned w (dpos (dist s))
}.

(** With a single worker the outputs come out in input order. *)
Definition order_inv (s : state) : Prop :=
  outputs s ++ flat_map inflight (workers s) = process <$> take (dpos (dist s)) inputs.

(** The results worker [w] has sent, oldest first, in a copy of
    [outputs] in which every element carries its sender. *)
Definition outputs_of (w : nat) (os : list (nat * TypeOut)) : list TypeOut :=
  (filter (λ p, p.1 = w) os).*2.

(** [outputs] can be labelled with senders so that what each worker has
    sent, followed by what it has in hand, is the image of the inputs
    it has received, in the order it received them. *)
Definition fifo_inv (s : state) : Prop :=
  ∃ tagged : list (nat * TypeOut),
    tagged.*2 = outputs s ∧
    Forall (λ p, p.1 < N) tagged ∧
    ∀ w ws, workers s !! w = Some ws →
      outputs_of w tagged ++ inflight ws
      = process <$> (calls_of w (calls s) ++ holding ws).

(** ** Lists updated at one index *)

Lemma flat_map_insert_perm {A B} (g : A → list B) (l : list A) i a b :
  l !! i = Some a →
  g a ++ flat_map g (<[i:=b]> l) ≡ₚ g b ++ flat_map g l.
Proof.
  revert i. induction l as [|c l IH]; intros [|i] Hi; simplify_eq/=.
  - by rewrite !(assoc (++)), (comm (++) (g a)).
  - rewrite (assoc (++)), (comm (++) (g a)), <-(assoc (++)), (IH _ Hi).
    by rewrite !(assoc (++)), (comm (++) (g b)).
Qed.

Lemma flat_map_insert_same {A B} (g : A → list B) (l : list A) i a b :
  l !! i = Some a → g b = g a → flat_map g (<[i:=b]> l) = flat_map g l.
Proof.
  revert i. induction l as [|c l IH]; intros [|i] Hi Hg; simplify_eq/=.
  - by rewrite Hg.
  - by rewrite (IH _ Hi Hg).
Qed.

Lemma flat_map_nil_all {A B} (g : A → list B) (l : list A) :
  (∀ i a, l !! i = Some a → g a = []) → flat_map g l = [].
Proof.
  induction l as [|c l IH]; intros Hall; simpl; [done|].
  rewrite (Hall 0 c eq_refl), IH; [done|].
  intros i a Hi. exact (Hall (S i) a Hi).
Qed.

Lemma sum_list_with_insert {A} (r : A → nat) (l : list A) i a b :
  l !! i = Some a →
  sum_list_with r (<[i:=b]> l) + r a = sum_list_with r l + r b.
Proof.
  revert i. induction l as [|c l IH]; intros [|i] Hi; simplify_eq/=.
  - lia.
  - specialize (IH _ Hi). lia.
Qed.

Lemma sum_list_with_lookup_le {A} (r : A → nat) (l : list A) i a :
  l !! i = Some a → r a ≤ sum_list_with r l.
Proof.
  revert i. induction l as [|c l IH]; intros [|i] Hi; simplify_eq/=.
  - lia.
  - specialize (IH _ Hi). lia.
Qed.

Lemma sum_list_with_replicate {A} (r : A → nat) k (a : A) :
  sum_list_with r (replicate k a) = k * r a.
Proof. induction k as [|k IH]; simpl; lia. Qed.

Lemma sum_list_with_zero {A} (r : A → nat) (l : list A) i a :
  sum_list_with r l = 0 → l !! i = Some a → r a = 0.
Proof.
  intros Hsum Hi. pose proof (sum_list_with_lookup_le r l i a Hi). lia.
Qed.

Lemma chan_closed_inv (P : Prop) `{!Decision P} :
  Closed = (if bool_decide P then Closed else Open) → P.
Proof. by case_bool_decide. Qed.

Lemma chan_open_inv (P : Prop) `{!Decision P} :
  Open = (if bool_decide P then Closed else Open) → ¬ P.
Proof. by case_bool_decide. Qed.

(** ** The initial state *)

Lemma int32_fits z :
  (-2147483648 ≤ z ≤ 2147483647)%Z → int32 z = z.
Proof.
  intros Hz. unfold int32. rewrite Z.mod_small by lia. lia.
Qed.

Lemma init_fits :
  (0 ≤ numOfRoutines ≤ 2147483647)%Z →
  init = mkState (MSpawn 0) [] (replicate N WUnspawned) (replicate N Open)
           DUnspawned TUnspawned numOfRoutines Open None [] [].
Proof.
  intros Hn. unfold init, maxChanSliceLen. rewrite int32_fits by lia.
  destruct (Z.ltb_spec numOfRoutines 0); [lia|].
  destruct (Z.ltb_spec 35184372088832 numOfRoutines); [lia|].
  destruct (Z.ltb_spec numOfRoutines 0); [lia|]. done.
Qed.

Lemma init_make_panics :
  (numOfRoutines < 0 ∨ maxChanSliceLen < numOfRoutines)%Z →
  init = mkState (MSpawn 0) [] [] [] DUnspawned TUnspawned 0%Z Open
           (Some PanicMakeSliceLen) [] [].
Proof.
  intros Hn. unfold init.
  destruct (Z.ltb_spec numOfRoutines 0); [done|].
  destruct (Z.ltb_spec maxChanSliceLen numOfRoutines); [done|lia].
Qed.

(** ** The control invariant *)

Section Valid.

(** The worker count is not negative and fits the WaitGroup counter,
    and a zero count comes with no input: the configurations in which
    the code does not panic. *)
Hypothesis Hcount : (0 ≤ numOfRoutines)%Z.
Hypothesis Hmax : (numOfRoutines ≤ 2147483647)%Z.
Hypothesis Hzero : numOfRoutines = 0%Z → inputs = [].

Lemma ctrl_inv_init : ctrl_inv init.
Proof.
  rewrite init_fits by lia.
  constructor; simpl.
  - done.
  - by rewrite length_replicate.
  - by rewrite length_replicate.
  - rewrite sum_list_with_replicate. simpl. lia.
  - by intros k b [-> _]%lookup_replicate.
  - lia.
  - intros w ws [-> _]%lookup_replicate. exists 0. split; [done|lia].
  - done.
  - done.
Qed.

Ltac worker_case Hw :=
  let w := fresh "w" in
  let ws := fresh "ws" in
  let Hl := fresh "Hl" in
  intros w ws Hl;
  try (apply list_lookup_insert_Some in Hl as [(<- & <- & ?)|(? & Hl)]);
  try (pose proof (lookup_lt_Some _ _ _ Hl);
       specialize (Hw _ _ Hl); destruct ws; simpl in *;
       try (destruct Hw as (? & ? & ?); simplify_eq));
  simpl in *; try done; try lia; try (eexists; split; [reflexivity|lia]).

Lemma ctrl_inv_step_main s s' :
  ctrl_inv s → step_main s = Some s' → ctrl_inv s'.
Proof.
  intros [Hp Hlw Hlc Hwg Hcl Hd Hw Ht Hm].
  destruct s as [m o ws cc d t g oc p cs dl]; simpl in *.
  unfold step_main, main_ok, waiter_ok in *; simpl in *.
  intros Hstep.
  destruct m; repeat case_match; simplify_eq/=; destruct_and?; simplify_eq/=;
    constructor; simpl; try done; try by worker_case Hw.
  - by rewrite length_insert.
  - destruct (lookup_lt_is_Some_2 ws i) as [wi Hwi]; [lia|].
    pose proof (sum_list_with_insert alive ws i wi WRecv Hwi) as Hsum.
    specialize (Hw _ _ Hwi). destruct wi; simpl in *; lia.
Qed.

Lemma ctrl_inv_step_waiter s s' :
  ctrl_inv s → step_waiter s = Some s' → ctrl_inv s'.
Proof.
  intros [Hp Hlw Hlc Hwg Hcl Hd Hw Ht Hm].
  destruct s as [m o ws cc d t g oc p cs dl]; simpl in *.
  unfold step_waiter, main_ok, waiter_ok in *; simpl in *.
  intros Hstep.
  destruct t; repeat case_match; simplify_eq/=; destruct_and?; simplify_eq/=;
    try (constructor; unfold waiter_ok, main_ok; simpl; try done;
         try (by worker_case Hw); try (split; [done|lia])).
Qed.

Ltac phase_case :=
  unfold main_ok, waiter_ok in *; simpl in *;
  repeat case_match; simplify_eq; intuition (try congruence; try lia).

Lemma channel_bound i :
  (0 < numOfRoutines)%Z →
  (0 ≤ Z.of_nat i `rem` numOfRoutines < numOfRoutines)%Z.
Proof. intros Hpos. apply Z.rem_bound_pos; lia. Qed.

Lemma ctrl_inv_step_dist s s' :
  ctrl_inv s → step_dist s = Some s' → ctrl_inv s'.
Proof.
  intros [Hp Hlw Hlc Hwg Hcl Hd Hw Ht Hm].
  destruct s as [m o ws cc d t g oc p cs dl]; simpl in *.
  unfold step_dist; simpl. intros Hstep.
  destruct d as [|i|j]; [done| |].
  - destruct (inputs !! i) as [x|] eqn:Hx.
    + assert (numOfRoutines ≠ 0%Z) as Hne.
      { intros Hz. by rewrite (Hzero Hz) in Hx. }
      destruct (Z.eqb_spec numOfRoutines 0); [done|].
      pose proof (channel_bound i ltac:(lia)) as Hc.
      set (c := (Z.of_nat i `rem` numOfRoutines)%Z) in *.
      destruct (Z.ltb_spec c 0); [lia|].
      destruct (cc !! Z.to_nat c) as [b|] eqn:Hcc;
        [|apply lookup_ge_None in Hcc; lia].
      rewrite (Hcl _ _ Hcc) in Hstep. simpl in Hstep.
      destruct (ws !! Z.to_nat c) as [[]|] eqn:Hwc; simplify_eq.
      apply lookup_lt_Some in Hx.
      constructor; simpl; try done; try lia; try by worker_case Hw.
      * by rewrite length_insert.
      * pose proof (sum_list_with_insert alive ws _ _ (WGot x) Hwc). simpl in *. lia.
      * phase_case.
    + simplify_eq. constructor; simpl; try done; try lia; try by worker_case Hw.
      phase_case.
  - destruct (cc !! j) as [b|] eqn:Hcc; [|done].
    rewrite (Hcl _ _ Hcc) in Hstep. simpl in Hstep.
    rewrite bool_decide_eq_false_2 in Hstep by lia. simplify_eq.
    apply lookup_lt_Some in Hcc as Hj.
    constructor; simpl; try done; try lia; try by worker_case Hw.
    + by rewrite length_insert.
    + intros k b' [(<- & <- & ?)|(? & Hk)]%list_lookup_insert_Some.
      * by rewrite bool_decide_eq_true_2 by lia.
      * rewrite (Hcl _ _ Hk). simpl.
        rewrite (bool_decide_ext (k < S j) (k < j)); [done|lia].
    + phase_case.
Qed.

Lemma ctrl_inv_step_worker w s s' :
  ctrl_inv s → step_worker w s = Some s' → ctrl_inv s'.
Proof.
  intros [Hp Hlw Hlc Hwg Hcl Hd Hw Ht Hm].
  destruct s as [m o ws cc d t g oc p cs dl]; simpl in *.
  unfold step_worker; simpl. intros Hstep.
  destruct (ws !! w) as [wsw|] eqn:Hwsw; [|done].
  pose proof (sum_list_with_lookup_le alive ws _ _ Hwsw) as Hle.
  assert (alive wsw = 1 → oc = Open) as Hoc.
  { intros Ha. unfold waiter_ok in Ht; simpl in Ht. destruct t; try done; lia. }
  pose proof (Hw _ _ Hwsw) as Hww.
  destruct wsw as [| |x|y| |]; simpl in *; try done.
  - destruct (cc !! w) as [[]|] eqn:Hcw; simplify_eq.
    apply Hcl, chan_closed_inv in Hcw.
    pose proof (sum_list_with_insert alive ws _ _ WExit Hwsw).
    constructor; simpl; rewrite ?length_insert; try done; try lia;
      try (by worker_case Hw); try solve [phase_case].
  - simplify_eq.
    pose proof (sum_list_with_insert alive ws _ _ (WSend (process x)) Hwsw).
    constructor; simpl; rewrite ?length_insert; try done; try lia;
      try (by worker_case Hw); try solve [phase_case].
  - rewrite Hoc in Hstep by done. destruct m; simplify_eq.
    pose proof (sum_list_with_insert alive ws _ _ WRecv Hwsw).
    constructor; simpl; rewrite ?length_insert; try done; try lia;
      try (by worker_case Hw); try solve [phase_case].
  - destruct (Z.ltb_spec (g - 1) 0); [lia|]. simplify_eq.
    pose proof (sum_list_with_insert alive ws _ _ WDone Hwsw).
    constructor; simpl; rewrite ?length_insert; try done; try lia;
      try (by worker_case Hw); try solve [phase_case].
Qed.

Lemma ctrl_inv_step a s s' :
  ctrl_inv s → step a s = Some s' → ctrl_inv s'.
Proof.
  intros Hinv. unfold step. rewrite (ci_panic _ Hinv).
  destruct a; eauto using ctrl_inv_step_main, ctrl_inv_step_dist,
    ctrl_inv_step_waiter, ctrl_inv_step_worker.
Qed.

Lemma ctrl_inv_reachable s : reachable s → ctrl_inv s.
Proof.
  induction 1; eauto using ctrl_inv_init, ctrl_inv_step.
Qed.

(** ** Termination and absence of deadlock *)

Lemma measure_step a s s' :
  ctrl_inv s → step a s = Some s' → measure s' < measure s.
Proof.
  intros Hinv Hstep. pose proof (ctrl_inv_step _ _ _ Hinv Hstep) as Hinv'.
  pose proof (ci_panic _ Hinv') as Hp'.
  destruct Hinv as [Hp Hlw Hlc Hwg Hcl Hd Hw Ht Hm].
  destruct s as [m o ws cc d t g oc p cs dl]; simpl in *.
  revert Hstep. unfold step; simpl. rewrite Hp. unfold measure.
  destruct a as [| | |w]; simpl.
  - unfold step_main; simpl. intros Hstep.
    unfold main_ok in Hm; simpl in Hm.
    destruct m; repeat case_match; destruct_and?; simplify_eq/=; try lia.
    destruct (lookup_lt_is_Some_2 ws i) as [wi Hwi]; [lia|].
    pose proof (sum_list_with_insert wrank ws i wi WRecv Hwi) as Hsum.
    specialize (Hw _ _ Hwi). destruct wi; simpl in *; lia.
  - unfold step_dist; simpl. intros Hstep.
    destruct d as [|i|j]; [done| |].
    + destruct (inputs !! i) as [x|] eqn:Hx; [|simplify_eq/=; lia].
      apply lookup_lt_Some in Hx as Hi.
      repeat case_match; simplify_eq/=.
      match goal with H : ws !! _ = Some WRecv |- _ =>
        pose proof (sum_list_with_insert wrank ws _ _ (WGot x) H) end.
      simpl in *. lia.
    + destruct (cc !! j) as [[]|] eqn:Hcc; simplify_eq/=.
      apply lookup_lt_Some in Hcc. rewrite length_insert. lia.
  - unfold step_waiter; simpl. intros Hstep.
    destruct t; repeat case_match; simplify_eq/=; lia.
  - unfold step_worker; simpl. intros Hstep.
    destruct (ws !! w) as [wsw|] eqn:Hwsw; [|done].
    destruct wsw; repeat case_match; simplify_eq/=;
      match goal with |- context [<[w:=?b]> ws] =>
        pose proof (sum_list_with_insert wrank ws _ _ b Hwsw) end;
      simpl in *; lia.
Qed.

Lemma sum_list_with_all_zero {A} (r : A → nat) (l : list A) :
  (∀ i a, l !! i = Some a → r a = 0) → sum_list_with r l = 0.
Proof.
  induction l as [|c l IH]; intros Hall; simpl; [done|].
  rewrite (Hall 0 c eq_refl), IH; [done|].
  intros i a Hi. exact (Hall (S i) a Hi).
Qed.

Lemma progress s :
  ctrl_inv s → main s ≠ MRet → ∃ a s', step a s = Some s'.
Proof.
  intros [Hp Hlw Hlc Hwg Hcl Hd Hw Ht Hm] Hrun.
  destruct s as [m o ws cc d t g oc p cs dl]; simpl in *.
  unfold step; simpl; rewrite Hp.
  destruct m as [i| | | |]; try done;
    try (exists AMain; unfold step_main; simpl; repeat case_match; eauto; fail).
  destruct oc; [|exists AMain; unfold step_main; simpl; eauto].
  unfold main_ok, waiter_ok in Hm, Ht; simpl in Hm, Ht. destruct Hm as [Hdu Htu].
  match goal with |- context [step_main ?s0] => set (st := s0) end.
  destruct (decide (Exists (λ w, is_Some (step_worker w st)) (seq 0 N)))
    as [Hex|Hnone].
  { apply Exists_exists in Hex as (w & _ & [s' Hs']). by exists (AWorker w), s'. }
  apply not_Exists_Forall in Hnone; [|intros w; apply _].
  rewrite Forall_seq in Hnone.
  assert (∀ w x, ws !! w = Some x →
            x = WDone ∨ (x = WRecv ∧ cc !! w = Some Open)) as Hidle.
  { intros w x Hx. apply lookup_lt_Some in Hx as Hlt.
    specialize (Hnone w ltac:(lia)). simpl in Hnone.
    specialize (Hw _ _ Hx).
    subst st. unfold step_worker in Hnone; simpl in Hnone. rewrite Hx in Hnone.
    destruct x; simpl in *.
    - by destruct Hw as (? & ? & ?).
    - destruct (lookup_lt_is_Some_2 cc w) as [[] Hb]; [lia|by right|].
      rewrite Hb in Hnone. destruct Hnone. eauto.
    - destruct Hnone. eauto.
    - destruct Hnone. eauto.
    - destruct Hnone. destruct (g - 1 <? 0)%Z; eauto.
    - by left. }
  destruct d as [|i|j]; [done| |].
  - exists ADist. subst st. unfold step_dist; simpl.
    destruct (inputs !! i) as [x|] eqn:Hx; [|eauto].
    assert (numOfRoutines ≠ 0%Z) as Hne.
    { intros Hz. by rewrite (Hzero Hz) in Hx. }
    pose proof (channel_bound i ltac:(lia)) as Hc.
    destruct (Z.eqb_spec numOfRoutines 0); [eauto|].
    set (c := (Z.of_nat i `rem` numOfRoutines)%Z) in *.
    destruct (Z.ltb_spec c 0); [eauto|].
    destruct (cc !! Z.to_nat c) as [[]|] eqn:Hcc; [|eauto|eauto].
    destruct (ws !! Z.to_nat c) as [wc|] eqn:Hwc;
      [|apply lookup_ge_None in Hwc; lia].
    destruct (Hidle _ _ Hwc) as [->|[-> _]]; [|eauto].
    specialize (Hw _ _ Hwc). simpl in Hw. lia.
  - destruct (cc !! j) as [b|] eqn:Hcc.
    { exists ADist. subst st. unfold step_dist; simpl. rewrite Hcc.
      destruct b; eauto. }
    apply lookup_ge_None in Hcc. simpl in Hd.
    assert (∀ w x, ws !! w = Some x → alive x = 0) as Hdone.
    { intros w x Hx. destruct (Hidle _ _ Hx) as [->|[-> Hcw]]; [done|].
      apply lookup_lt_Some in Hx. apply Hcl, chan_open_inv in Hcw.
      simpl in Hcw. lia. }
    apply sum_list_with_all_zero in Hdone.
    exists AWaiter. subst st. unfold step_waiter; simpl.
    destruct t; try done.
    + destruct (Z.eqb_spec g 0); [eauto|lia].
    + eauto.
    + by destruct Ht.
Qed.

Lemma reachable_step a s s' : reachable s → step a s = Some s' → reachable s'.
Proof. intros. by eapply reach_step. Qed.

Lemma inevitably_mono (Q Q' : state → Prop) s :
  (∀ s, Q s → Q' s) → inevitably Q s → inevitably Q' s.
Proof.
  intros HQ. induction 1 as [s HQs|s Hex _ IH].
  - apply inev_now. auto.
  - apply inev_later; auto.
Qed.

Lemma inevitably_returns s :
  reachable s →
  inevitably (λ s, main s = MRet ∧ panicked s = None ∧ reachable s) s.
Proof.
  remember (measure s) as k eqn:Hk. revert s Hk.
  induction k as [k IH] using lt_wf_ind. intros s -> Hreach.
  pose proof (ctrl_inv_reachable _ Hreach) as Hinv.
  destruct (main s) eqn:Hm.
  5: { apply inev_now. eauto using ci_panic. }
  all: apply inev_later;
    [apply progress; [done|by rewrite Hm]
    |intros a s' Hstep; eapply IH;
       [by eapply measure_step|done|by eapply reachable_step]].
Qed.

Lemma returns_with_intro (P : state → Prop) :
  (∀ s, reachable s → main s = MRet → P s) → returns_with P.
Proof.
  intros HP. split; [|done].
  eapply inevitably_mono; [|apply inevitably_returns, reach_init].
  intros s (Hm & Hp & Hreach). auto.
Qed.

(** ** The data invariant *)

Lemma channel_mod i :
  (0 < numOfRoutines)%Z →
  Z.to_nat (Z.of_nat i `rem` numOfRoutines) = i mod N.
Proof.
  intros Hpos. rewrite Z.rem_mod_nonneg by lia.
  rewrite <-(Z2Nat.id numOfRoutines) at 1 by lia.
  by rewrite <-Nat2Z.inj_mod, Nat2Z.id.
Qed.

Lemma assigned_S w d x :
  inputs !! d = Some x →
  assigned w (S d) = assigned w d ++ (if decide (d mod N = w) then [x] else []).
Proof.
  intros Hx. unfold assigned. rewrite seq_S, omap_app. simpl.
  rewrite Hx. by case_decide.
Qed.

Lemma delivered_S d :
  ((λ i, (i, i mod N)) <$> seq 0 d) ++ [(d, d mod N)]
  = (λ i, (i, i mod N)) <$> seq 0 (S d).
Proof. by rewrite seq_S, fmap_app. Qed.

Lemma calls_of_snoc w w' x cs :
  calls_of w (cs ++ [(w', x)]) = calls_of w cs ++ (if decide (w' = w) then [x] else []).
Proof.
  unfold calls_of. rewrite filter_app, fmap_app. f_equal.
  rewrite filter_cons. simpl. by case_decide.
Qed.

Lemma data_inv_init : data_inv init.
Proof.
  rewrite init_fits by lia.
  constructor; simpl.
  - rewrite flat_map_nil_all; [done|]. by intros i a [-> _]%lookup_replicate.
  - rewrite flat_map_nil_all; [done|]. by intros i a [-> _]%lookup_replicate.
  - done.
  - by intros w ws [-> _]%lookup_replicate.
Qed.

Lemma data_inv_step_main s s' :
  ctrl_inv s → data_inv s → step_main s = Some s' → data_inv s'.
Proof.
  intros [Hp Hlw Hlc Hwg Hcl Hd Hw Ht Hm] [Hc Ho Hdl Hf].
  destruct s as [m o ws cc d t g oc p cs dl]; simpl in *.
  unfold step_main; simpl. intros Hstep.
  unfold main_ok in Hm; simpl in Hm.
  destruct m; repeat case_match; destruct_and?; simplify_eq/=;
    try (by constructor).
  destruct (lookup_lt_is_Some_2 ws i) as [wi Hwi]; [lia|].
  assert (holding wi = [] ∧ inflight wi = []) as [Hh Hi].
  { specialize (Hw _ _ Hwi). by destruct wi. }
  constructor; simpl.
  - by rewrite (flat_map_insert_same holding ws i wi).
  - by rewrite (flat_map_insert_same inflight ws i wi).
  - done.
  - intros w x [(<- & <- & ?)|(? & Hl)]%list_lookup_insert_Some; [|eauto].
    rewrite <-(Hf _ _ Hwi). by rewrite Hh.
Qed.

Lemma data_inv_step_waiter s s' :
  data_inv s → step_waiter s = Some s' → data_inv s'.
Proof.
  intros [Hc Ho Hdl Hf].
  destruct s as [m o ws cc d t g oc p cs dl]; simpl in *.
  unfold step_waiter; simpl. intros Hstep.
  destruct t; repeat case_match; simplify_eq/=; by constructor.
Qed.

Lemma data_inv_step_dist s s' :
  ctrl_inv s → data_inv s → step_dist s = Some s' → panicked s' = None →
  data_inv s'.
Proof.
  intros [Hp Hlw Hlc Hwg Hcl Hd Hw Ht Hm] [Hc Ho Hdl Hf].
  destruct s as [m o ws cc d t g oc p cs dl]; simpl in *.
  unfold step_dist; simpl. intros Hstep Hp'.
  destruct d as [|i|j]; [done| |].
  - destruct (inputs !! i) as [x|] eqn:Hx.
    + destruct (Z.eqb_spec numOfRoutines 0); [by simplify_eq|].
      rewrite (channel_mod i) in Hstep by lia.
      repeat case_match; simplify_eq/=.
      match goal with H : ws !! _ = Some WRecv |- _ => rename H into Hwc end.
      constructor; simpl.
      * rewrite (take_S_r _ _ _ Hx).
        pose proof (flat_map_insert_perm holding ws _ _ (WGot x) Hwc) as Hperm.
        simpl in Hperm. rewrite Hperm, <-Hc.
        by rewrite <-(assoc (++)), (comm (++) _ [x]).
      * rewrite (take_S_r _ _ _ Hx), fmap_app. simpl.
        pose proof (flat_map_insert_perm inflight ws _ _ (WGot x) Hwc) as Hperm.
        simpl in Hperm. rewrite Hperm, <-Ho.
        by rewrite <-(assoc (++)), (comm (++) _ [process x]).
      * apply delivered_S.
      * intros w y Hl. rewrite (assigned_S _ _ _ Hx).
        apply list_lookup_insert_Some in Hl as [(<- & <- & ?)|(? & Hl)].
        -- rewrite decide_True by done. rewrite <-(Hf _ _ Hwc). simpl.
           by rewrite (right_id [] (++)).
        -- rewrite decide_False by done. rewrite (right_id [] (++)). eauto.
    + simplify_eq/=. apply lookup_ge_None in Hx.
      assert (i = M) as -> by lia. by constructor.
  - repeat case_match; simplify_eq/=; by constructor.
Qed.

Lemma data_inv_step_worker w s s' :
  ctrl_inv s → data_inv s → step_worker w s = Some s' → panicked s' = None →
  data_inv s'.
Proof.
  intros [Hp Hlw Hlc Hwg Hcl Hd Hw Ht Hm] [Hc Ho Hdl Hf].
  destruct s as [m o ws cc d t g oc p cs dl]; simpl in *.
  unfold step_worker; simpl. intros Hstep Hp'.
  destruct (ws !! w) as [wsw|] eqn:Hwsw; [|done].
  destruct wsw as [| |x|y| |]; repeat case_match; simplify_eq/=.
  - constructor; simpl; rewrite ?(flat_map_insert_same _ ws w WRecv); try done.
    intros w' x [(<- & <- & ?)|(? & Hl)]%list_lookup_insert_Some; [|eauto].
    by rewrite <-(Hf _ _ Hwsw).
  - constructor; simpl; rewrite ?(flat_map_insert_same inflight ws w (WGot x));
      try done.
    + pose proof (flat_map_insert_perm holding ws _ _ (WSend (process x)) Hwsw) as Hperm.
      simpl in Hperm. rewrite fmap_app, <-Hc, <-Hperm. simpl.
      by rewrite <-(assoc (++)).
    + intros w' y Hl. rewrite calls_of_snoc.
      apply list_lookup_insert_Some in Hl as [(<- & <- & ?)|(? & Hl)].
      * rewrite decide_True by done. rewrite <-(Hf _ _ Hwsw). simpl.
        by rewrite (right_id [] (++)).
      * rewrite decide_False by done. rewrite (right_id [] (++)). eauto.
  - constructor; simpl; rewrite ?(flat_map_insert_same holding ws w (WSend y));
      try done.
    + pose proof (flat_map_insert_perm inflight ws _ _ WRecv Hwsw) as Hperm.
      simpl in Hperm. rewrite <-Ho, <-Hperm. simpl.
      by rewrite <-(assoc (++)).
    + intros w' x [(<- & <- & ?)|(? & Hl)]%list_lookup_insert_Some; [|eauto].
      by rewrite <-(Hf _ _ Hwsw).
  - constructor; simpl; rewrite ?(flat_map_insert_same _ ws w WExit); try done.
    intros w' x [(<- & <- & ?)|(? & Hl)]%list_lookup_insert_Some; [|eauto].
    by rewrite <-(Hf _ _ Hwsw).
Qed.

Lemma data_inv_step a s s' :
  ctrl_inv s → data_inv s → step a s = Some s' → data_inv s'.
Proof.
  intros Hinv Hdata Hstep.
  pose proof (ci_panic _ (ctrl_inv_step _ _ _ Hinv Hstep)) as Hp'.
  revert Hstep. unfold step. rewrite (ci_panic _ Hinv).
  destruct a; eauto using data_inv_step_main, data_inv_step_dist,
    data_inv_step_waiter, data_inv_step_worker.
Qed.

Lemma data_inv_reachable s : reachable s → data_inv s.
Proof.
  induction 1; eauto using data_inv_init, data_inv_step, ctrl_inv_reachable.
Qed.

(** ** The state in which the caller holds the result *)

Lemma returned_workers_done s w ws :
  ctrl_inv s → main s = MRet → workers s !! w = Some ws → ws = WDone.
Proof.
  intros [Hp Hlw Hlc Hwg Hcl Hd Hw Ht Hm] Hret Hl.
  unfold main_ok, waiter_ok in *. rewrite Hret in Hm. destruct Hm as [_ Hm].
  rewrite Hm in Ht. destruct Ht as [_ Ht].
  assert (alive ws = 0) as Ha.
  { eapply sum_list_with_zero; [|done]. lia. }
  by destruct ws.
Qed.

Lemma returned_all_closed s k :
  ctrl_inv s → main s = MRet → k < N → inputChannels s !! k = Some Closed.
Proof.
  intros Hinv Hret Hk.
  destruct (lookup_lt_is_Some_2 (workers s) k) as [ws Hws];
    [by rewrite (ci_lenw _ Hinv)|].
  pose proof (returned_workers_done _ _ _ Hinv Hret Hws) as ->.
  pose proof (ci_worker _ Hinv _ _ Hws) as Hlt. simpl in Hlt.
  destruct (lookup_lt_is_Some_2 (inputChannels s) k) as [b Hb];
    [by rewrite (ci_lenc _ Hinv)|].
  rewrite Hb. f_equal. rewrite (ci_closed _ Hinv _ _ Hb).
  by rewrite bool_decide_eq_true_2.
Qed.

Lemma returned_all_delivered s :
  ctrl_inv s → main s = MRet → dpos (dist s) = M.
Proof.
  intros Hinv Hret.
  destruct (decide (numOfRoutines = 0%Z)) as [Hz|Hnz].
  - pose proof (ci_dist _ Hinv) as [Hle _]. rewrite (Hzero Hz) in *.
    simpl in *. lia.
  - destruct (lookup_lt_is_Some_2 (workers s) 0) as [ws Hws];
      [rewrite (ci_lenw _ Hinv); lia|].
    pose proof (returned_workers_done _ _ _ Hinv Hret Hws) as ->.
    pose proof (ci_worker _ Hinv _ _ Hws) as Hlt. simpl in Hlt.
    destruct (dist s); simpl in *; lia.
Qed.

Lemma returned_nothing_in_hand {B} (g : wstate → list B) s :
  g WDone = [] → ctrl_inv s → main s = MRet → flat_map g (workers s) = [].
Proof.
  intros Hg Hinv Hret. apply flat_map_nil_all. intros i a Hi.
  by rewrite (returned_workers_done _ _ _ Hinv Hret Hi).
Qed.

Lemma returned_outputs s :
  reachable s → main s = MRet → outputs s ≡ₚ process <$> inputs.
Proof.
  intros Hreach Hret.
  pose proof (ctrl_inv_reachable _ Hreach) as Hinv.
  pose proof (di_outputs _ (data_inv_reachable _ Hreach)) as Ho.
  rewrite (returned_nothing_in_hand inflight), (right_id [] (++)) in Ho by done.
  by rewrite (returned_all_delivered _ Hinv Hret), take_ge in Ho.
Qed.

Lemma returned_calls s :
  reachable s → main s = MRet → (calls s).*2 ≡ₚ inputs.
Proof.
  intros Hreach Hret.
  pose proof (ctrl_inv_reachable _ Hreach) as Hinv.
  pose proof (di_calls _ (data_inv_reachable _ Hreach)) as Hc.
  rewrite (returned_nothing_in_hand holding), (right_id [] (++)) in Hc by done.
  by rewrite (returned_all_delivered _ Hinv Hret), take_ge in Hc.
Qed.


Lemma returned_fifo s w :
  reachable s → main s = MRet → w < N → calls_of w (calls s) = assigned w M.
Proof.
  intros Hreach Hret Hw.
  pose proof (ctrl_inv_reachable _ Hreach) as Hinv.
  destruct (lookup_lt_is_Some_2 (workers s) w) as [ws Hws];
    [by rewrite (ci_lenw _ Hinv)|].
  pose proof (di_fifo _ (data_inv_reachable _ Hreach) _ _ Hws) as Hf.
  rewrite (returned_workers_done _ _ _ Hinv Hret Hws) in Hf. simpl in Hf.
  by rewrite (right_id [] (++)), (returned_all_delivered _ Hinv Hret) in Hf.
Qed.

(** Once the caller has its result and there is at least one worker,
    no goroutine of the call can take a step. *)
Lemma returned_quiescent s a :
  (0 < numOfRoutines)%Z → ctrl_inv s → main s = MRet → step a s = None.
Proof.
  intros Hpos Hinv Hret. unfold step. rewrite (ci_panic _ Hinv).
  destruct a as [| | |w].
  - unfold step_main. by rewrite Hret.
  - unfold step_dist.
    pose proof (returned_all_closed s (N - 1) Hinv Hret ltac:(lia)) as Hc.
    pose proof (ci_closed _ Hinv _ _ Hc) as Hb.
    apply chan_closed_inv in Hb.
    pose proof (ci_dist _ Hinv) as [_ Hle].
    destruct (dist s) as [|i|j]; simpl in *; [done|lia|].
    assert (inputChannels s !! j = None) as ->; [|done].
    apply lookup_ge_None. rewrite (ci_lenc _ Hinv). lia.
  - unfold step_waiter. pose proof (ci_main _ Hinv) as Hm.
    unfold main_ok in Hm. rewrite Hret in Hm. by rewrite (proj2 Hm).
  - unfold step_worker. destruct (workers s !! w) as [ws|] eqn:Hws; [|done].
    by rewrite (returned_workers_done _ _ _ Hinv Hret Hws).
Qed.




(** ** A single worker *)

Section Single.

Hypothesis Hone : numOfRoutines = 1%Z.

Lemma order_inv_init : order_inv init.
Proof. rewrite init_fits by lia. rewrite Hone. done. Qed.

Lemma order_inv_step a s s' :
  ctrl_inv s → order_inv s → step a s = Some s' → order_inv s'.
Proof.
  intros Hinv Hord Hstep.
  pose proof (ci_panic _ (ctrl_inv_step _ _ _ Hinv Hstep)) as Hp'.
  destruct Hinv as [Hp Hlw Hlc Hwg Hcl Hd Hw Ht Hm].
  destruct s as [m o ws cc d t g oc p cs dl]; simpl in *.
  rewrite Hone in Hlw. destruct ws as [|w0 [|? ?]]; try done.
  revert Hstep. unfold step, order_inv in *; simpl in *. rewrite Hp.
  destruct a as [| | |w]; simpl.
  - unfold step_main; simpl. intros Hstep.
    unfold main_ok in Hm; simpl in Hm.
    destruct m; repeat case_match; destruct_and?; simplify_eq/=; try done.
    destruct i as [|i]; simpl;
      [|match goal with H : (_ <? _)%Z = true |- _ => apply Z.ltb_lt in H end; lia].
    specialize (Hw 0 w0 eq_refl). by destruct w0.
  - unfold step_dist; simpl. intros Hstep.
    destruct d as [|i|j]; [done| |].
    + destruct (inputs !! i) as [x|] eqn:Hx.
      * rewrite Hone, Z.rem_1_r in Hstep. simpl in Hstep.
        repeat case_match; simplify_eq/=.
        rewrite (take_S_r _ _ _ Hx), fmap_app, <-Hord. simpl.
        by rewrite !(right_id [] (++)).
      * simplify_eq/=. apply lookup_ge_None in Hx.
        by assert (i = M) as -> by lia.
    + repeat case_match; by simplify_eq/=.
  - unfold step_waiter; simpl. intros Hstep.
    destruct t; repeat case_match; by simplify_eq/=.
  - unfold step_worker; simpl. intros Hstep.
    destruct w as [|w]; [|done]. simpl in Hstep.
    destruct w0; repeat case_match; simplify_eq/=; try done.
    by rewrite <-Hord, <-(assoc (++)).
Qed.

Lemma order_inv_reachable s : reachable s → order_inv s.
Proof.
  induction 1; eauto using order_inv_init, order_inv_step, ctrl_inv_reachable.
Qed.

Lemma returned_in_order s :
  reachable s → main s = MRet → outputs s = process <$> inputs.
Proof.
  intros Hreach Hret.
  pose proof (ctrl_inv_reachable _ Hreach) as Hinv.
  pose proof (order_inv_reachable _ Hreach) as Ho. unfold order_inv in Ho.
  rewrite (returned_nothing_in_hand inflight), (right_id [] (++)) in Ho by done.
  by rewrite (returned_all_delivered _ Hinv Hret), take_ge in Ho.
Qed.

End Single.

(** ** Back-pressure *)




(** ** The order of the results of one worker *)

Lemma outputs_of_snoc w w' y os :
  outputs_of w (os ++ [(w', y)])
  = outputs_of w os ++ (if decide (w' = w) then [y] else []).
Proof.
  unfold outputs_of. rewrite filter_app, fmap_app. f_equal.
  rewrite filter_cons. simpl. by case_decide.
Qed.

Lemma fifo_inv_init : fifo_inv init.
Proof.
  exists []. rewrite init_fits by lia.
  simpl. split; [done|]. split; [done|].
  by intros w ws [-> _]%lookup_replicate.
Qed.

Lemma fifo_inv_step a s s' :
  ctrl_inv s → fifo_inv s → step a s = Some s' → fifo_inv s'.
Proof.
  intros Hinv (tagged & Ho & Hlt & Hf) Hstep.
  pose proof (ci_panic _ (ctrl_inv_step _ _ _ Hinv Hstep)) as Hp'.
  destruct Hinv as [Hp Hlw Hlc Hwg Hcl Hd Hw Ht Hm].
  destruct s as [m o ws cc d t g oc p cs dl]; simpl in *.
  revert Hstep. unfold step, fifo_inv; simpl. rewrite Hp.
  destruct a as [| | |w]; simpl.
  - unfold step_main; simpl. intros Hstep.
    unfold main_ok in Hm; simpl in Hm.
    destruct m; repeat case_match; destruct_and?; simplify_eq/=;
      try (by exists tagged).
    destruct (lookup_lt_is_Some_2 ws i) as [wi Hwi]; [lia|].
    exists tagged. split; [done|]. split; [done|].
    intros w x [(<- & <- & ?)|(? & Hl)]%list_lookup_insert_Some; [|eauto].
    specialize (Hf _ _ Hwi). specialize (Hw _ _ Hwi).
    destruct wi; simpl in *; try done; lia.
  - unfold step_dist; simpl. intros Hstep.
    destruct d as [|i|j]; [done| |].
    + destruct (inputs !! i) as [x|] eqn:Hx; [|simplify_eq/=; by exists tagged].
      repeat case_match; simplify_eq/=.
      match goal with H : ws !! _ = Some WRecv |- _ => rename H into Hwc end.
      exists tagged. split; [done|]. split; [done|].
      intros w y [(<- & <- & ?)|(? & Hl)]%list_lookup_insert_Some; [|eauto].
      specialize (Hf _ _ Hwc). simpl in *.
      rewrite (right_id [] (++)) in Hf. rewrite Hf.
      by rewrite !fmap_app, (right_id [] (++)).
    + repeat case_match; simplify_eq/=; by exists tagged.
  - unfold step_waiter; simpl. intros Hstep.
    destruct t; repeat case_match; simplify_eq/=; by exists tagged.
  - unfold step_worker; simpl. intros Hstep.
    destruct (ws !! w) as [wsw|] eqn:Hwsw; [|done].
    pose proof (Hf _ _ Hwsw) as Hfw.
    destruct wsw as [| |x|y| |]; repeat case_match; simplify_eq/=.
    + exists tagged. split; [done|]. split; [done|].
      by intros w' x [(<- & <- & ?)|(? & Hl)]%list_lookup_insert_Some; eauto.
    + exists tagged. split; [done|]. split; [done|].
      intros w' y Hl. rewrite calls_of_snoc.
      apply list_lookup_insert_Some in Hl as [(<- & <- & ?)|(? & Hl)].
      * rewrite decide_True by done. simpl. by rewrite (right_id [] (++)).
      * rewrite decide_False by done. rewrite (right_id [] (++)). eauto.
    + exists (tagged ++ [(w, y)]).
      split; [by rewrite fmap_app|].
      split.
      { apply Forall_app. split; [done|]. apply Forall_singleton. simpl.
        apply lookup_lt_Some in Hwsw. lia. }
      intros w' x Hl. rewrite outputs_of_snoc.
      apply list_lookup_insert_Some in Hl as [(<- & <- & ?)|(? & Hl)].
      * rewrite decide_True by done. simpl. by rewrite (right_id [] (++)).
      * rewrite decide_False by done. rewrite (right_id [] (++)). eauto.
    + exists tagged. split; [done|]. split; [done|].
      by intros w' x [(<- & <- & ?)|(? & Hl)]%list_lookup_insert_Some; eauto.
Qed.

Lemma fifo_inv_reachable s : reachable s → fifo_inv s.
Proof.
  induction 1; eauto using fifo_inv_init, fifo_inv_step, ctrl_inv_reachable.
Qed.

Lemma returned_interleaving s :
  reachable s → main s = MRet →
  ∃ tagged : list (nat * TypeOut),
    tagged.*2 = outputs s ∧
    Forall (λ p, p.1 < N) tagged ∧
    ∀ w, w < N → outputs_of w tagged = process <$> assigned w M.
Proof.
  intros Hreach Hret.
  pose proof (ctrl_inv_reachable _ Hreach) as Hinv.
  destruct (fifo_inv_reachable _ Hreach) as (tagged & Ho & Hlt & Hf).
  exists tagged. split; [done|]. split; [done|].
  intros w Hw.
  destruct (lookup_lt_is_Some_2 (workers s) w) as [ws Hws];
    [by rewrite (ci_lenw _ Hinv)|].
  specialize (Hf _ _ Hws).
  rewrite (returned_workers_done _ _ _ Hinv Hret Hws) in Hf. simpl in Hf.
  rewrite !(right_id [] (++)) in Hf.
  by rewrite Hf, (returned_fifo _ _ Hreach Hret Hw).
Qed.

(** ** The completion barrier *)

Lemma closed_workers_done s w ws :
  ctrl_inv s → outputChannel s = Closed → workers s !! w = Some ws → ws = WDone.
Proof.
  intros [Hp Hlw Hlc Hwg Hcl Hd Hw Ht Hm] Hoc Hl.
  unfold waiter_ok in Ht. rewrite Hoc in Ht.
  assert (wg s = 0%Z) as Hz by (destruct (waiter s); intuition congruence).
  assert (alive ws = 0) as Ha.
  { eapply sum_list_with_zero; [|done]. lia. }
  by destruct ws.
Qed.

Lemma closed_all_delivered s :
  ctrl_inv s → outputChannel s = Closed → dpos (dist s) = M.
Proof.
  intros Hinv Hoc.
  destruct (decide (numOfRoutines = 0%Z)) as [Hz|Hnz].
  - pose proof (ci_dist _ Hinv) as [Hle _]. rewrite (Hzero Hz) in *.
    simpl in *. lia.
  - destruct (lookup_lt_is_Some_2 (workers s) 0) as [ws Hws];
      [rewrite (ci_lenw _ Hinv); lia|].
    pose proof (closed_workers_done _ _ _ Hinv Hoc Hws) as ->.
    pose proof (ci_worker _ Hinv _ _ Hws) as Hlt. simpl in Hlt.
    destruct (dist s); simpl in *; lia.
Qed.

Lemma closed_outputs_complete s :
  reachable s → outputChannel s = Closed → outputs s ≡ₚ process <$> inputs.
Proof.
  intros Hreach Hoc.
  pose proof (ctrl_inv_reachable _ Hreach) as Hinv.
  pose proof (di_outputs _ (data_inv_reachable _ Hreach)) as Ho.
  rewrite flat_map_nil_all, (right_id [] (++)) in Ho.
  - by rewrite (closed_all_delivered _ Hinv Hoc), take_ge in Ho.
  - intros i a Hi. by rewrite (closed_workers_done _ _ _ Hinv Hoc Hi).
Qed.

(** ** The share of each worker *)

Lemma div_mod_succ d :
  0 < N →
  (S d mod N = 0 ∧ S d / N = S (d / N) ∧ S (d mod N) = N) ∨
  (S d mod N = S (d mod N) ∧ S d / N = d / N ∧ S (d mod N) < N).
Proof.
  intros Hpos.
  pose proof (Nat.div_mod_eq d N) as Hd.
  pose proof (Nat.mod_upper_bound d N ltac:(lia)) as Hr.
  destruct (decide (S (d mod N) = N)) as [Heq|Hne].
  - left. split; [|split; [|done]].
    + symmetry. apply (Nat.mod_unique _ N (S (d / N))); lia.
    + symmetry. apply (Nat.div_unique _ N _ 0); lia.
  - right. split; [|split; [|lia]].
    + symmetry. apply (Nat.mod_unique _ N (d / N)); lia.
    + symmetry. apply (Nat.div_unique _ N _ (S (d mod N))); lia.
Qed.

Lemma assigned_length w d :
  0 < N → w < N → d ≤ M →
  length (assigned w d) = d / N + (if decide (w < d mod N) then 1 else 0).
Proof.
  intros Hpos Hw. induction d as [|d IH]; intros Hd.
  - rewrite Nat.Div0.div_0_l, Nat.Div0.mod_0_l. by rewrite decide_False by lia.
  - destruct (lookup_lt_is_Some_2 inputs d) as [x Hx]; [lia|].
    rewrite (assigned_S _ _ _ Hx), length_app, IH by lia.
    destruct (div_mod_succ d Hpos) as [(-> & -> & ?)|(-> & -> & ?)];
      repeat case_decide; simpl; lia.
Qed.

End Valid.





Lemma run_reachable sched s : reachable s → reachable (run sched s).
Proof.
  revert s. induction sched as [|a sched IH]; intros s Hreach; simpl; [done|].
  destruct (step a s) as [s'|] eqn:Hstep; eauto using reachable_step.
Qed.

(** ** Worker counts the code does not guard against *)

Section Invalid.

Lemma negative_count_stuck s :
  (numOfRoutines < 0)%Z → reachable s → s = init.
Proof.
  intros Hneg. induction 1 as [|a s s' _ -> Hstep]; [done|].
  revert Hstep. unfold step. by rewrite init_make_panics by lia.
Qed.

Lemma zero_count_inv s :
  numOfRoutines = 0%Z → reachable s →
  workers s = [] ∧ inputChannels s = [] ∧ calls s = [] ∧ outputs s = [] ∧
  (waiter s ≠ TDone → outputChannel s = Open) ∧
  (main s ≠ MRecv → main s ≠ MRet → waiter s = TUnspawned) ∧
  (panicked s = None ∨ panicked s = Some PanicDivideByZero).
Proof.
  intros Hz. induction 1 as [|a s s' _ IH Hstep].
  { rewrite init_fits by lia. rewrite Hz. simpl. intuition congruence. }
  destruct IH as (Hw & Hc & Hcs & Ho & Hoc & Hm & Hp).
  destruct s as [m o ws cc d t g oc p cs dl]; simpl in *. subst.
  revert Hstep. unfold step; simpl. destruct p as [p|]; [done|].
  destruct a as [| | |w].
  - unfold step_main; simpl. intros Hstep.
    destruct m; repeat case_match; simplify_eq/=; intuition congruence.
  - unfold step_dist; simpl. intros Hstep.
    destruct d as [|i|j]; simplify_eq/=.
    destruct (inputs !! i); simplify_eq/=; intuition congruence.
  - unfold step_waiter; simpl. intros Hstep.
    destruct t; repeat case_match; simplify_eq/=; intuition congruence.
  - by unfold step_worker.
Qed.

Lemma init_untouched :
  outputs init = [] ∧ calls init = [] ∧ delivered init = [] ∧
  outputChannel init = Open.
Proof. unfold init. by repeat case_match. Qed.

Lemma panicked_init_stuck s :
  panicked init ≠ None → reachable s → s = init.
Proof.
  intros Hp. induction 1 as [|a s s' _ -> Hstep]; [done|].
  revert Hstep. unfold step. by destruct (panicked init).
Qed.

Lemma make_panic_never_returns (P : state → Prop) :
  (numOfRoutines < 0 ∨ maxChanSliceLen < numOfRoutines)%Z →
  ¬ returns_with P.
Proof.
  intros Hn [Hinev _]. rewrite init_make_panics in Hinev by done.
  inversion Hinev as [s (_ & Hp & _)|s (a & s' & Hstep)]; simplify_eq/=.
Qed.

End Invalid.

(** ** A worker count that wraps the WaitGroup counter *)

Section Wrap.

Hypothesis Hlen : (0 ≤ numOfRoutines ≤ maxChanSliceLen)%Z.
Hypothesis Hwrap : int32 numOfRoutines = 0%Z.

Lemma init_wrap :
  init = mkState (MSpawn 0) [] (replicate N WUnspawned) (replicate N Open)
           DUnspawned TUnspawned 0%Z Open None [] [].
Proof.
  unfold init. rewrite Hwrap.
  destruct (Z.ltb_spec numOfRoutines 0); [lia|].
  destruct (Z.ltb_spec maxChanSliceLen numOfRoutines); [lia|]. done.
Qed.

Lemma spawned_reachable i :
  i ≤ N →
  reachable (mkState (MSpawn i) []
               (replicate i WRecv ++ replicate (N - i) WUnspawned)
               (replicate N Open) DUnspawned TUnspawned 0%Z Open None [] []).
Proof.
  induction i as [|i IH]; intros Hi.
  - rewrite Nat.sub_0_r. simpl. rewrite <-init_wrap. apply reach_init.
  - eapply (reach_step AMain); [apply IH; lia|].
    unfold step, step_main. simpl.
    destruct (Z.ltb_spec (Z.of_nat i) numOfRoutines); [|lia].
    do 2 f_equal. unfold set_main, set_workers. simpl. f_equal.
    replace (N - i) with (S (N - S i)) by lia.
    rewrite insert_app_r_alt by (rewrite length_replicate; lia).
    rewrite length_replicate, Nat.sub_diag. simpl.
    by rewrite cons_middle, (assoc (++)), <-replicate_S_end.
Qed.

(** The counter reads zero although [numOfRoutines] workers are
    waiting, so the output channel can be closed and the caller can
    return before any input is handed off. *)
Lemma wrap_returns_empty :
  ∃ s, reachable s ∧ main s = MRet ∧ panicked s = None ∧
       outputChannel s = Closed ∧ outputs s = [] ∧ delivered s = [] ∧
       workers s = replicate N WRecv.
Proof.
  pose proof (spawned_reachable N ltac:(lia)) as H0.
  rewrite Nat.sub_diag in H0. simpl in H0. rewrite (right_id [] (++)) in H0.
  assert (reachable (mkState MSpawnDist [] (replicate N WRecv)
                       (replicate N Open) DUnspawned TUnspawned 0%Z Open
                       None [] [])) as H1.
  { eapply (reach_step AMain); [exact H0|].
    unfold step, step_main. simpl.
    by destruct (Z.ltb_spec (Z.of_nat N) numOfRoutines); [lia|]. }
  pose proof (reach_step AMain _ _ H1 eq_refl) as H2.
  pose proof (reach_step AMain _ _ H2 eq_refl) as H3.
  pose proof (reach_step AWaiter _ _ H3 eq_refl) as H4.
  pose proof (reach_step AWaiter _ _ H4 eq_refl) as H5.
  pose proof (reach_step AMain _ _ H5 eq_refl) as H6.
  eexists. split; [exact H6|done].
Qed.

End Wrap.

End Execute.

(** * The claims *)

Section Claims.

Context {TypeIn TypeOut : Type}.
Implicit Types (numOfRoutines : Z) (inputs : list TypeIn).
Implicit Types (process : TypeIn → TypeOut).

(** C1, amended.  For every worker count from 1 to [2^31 - 1] and every
    input sequence, [Execute] returns, whatever the schedule, and the
    result has exactly as many elements as the input. *)
Theorem Execute_length numOfRoutines inputs process :
  (1 ≤ numOfRoutines ≤ 2147483647)%Z →
  returns_with numOfRoutines inputs process
    (λ s, length (outputs s) = length inputs).
Proof.
  intros Hn. apply returns_with_intro; [lia|lia|intros; lia|].
  intros s Hreach Hret.
  rewrite (returned_outputs numOfRoutines inputs process) by (done || lia).
  apply length_fmap.
Qed.

(** C2, amended.  For every worker count from 1 to [2^31 - 1], the
    call returns under every schedule, the returned values are,
    as a multiset, the images of the inputs under [process], and
    [process] has been invoked once per input element: the arguments of
    its invocations are, as a multiset, the inputs. *)
Theorem Execute_multiset numOfRoutines inputs process :
  (1 ≤ numOfRoutines ≤ 2147483647)%Z →
  returns_with numOfRoutines inputs process
    (λ s, outputs s ≡ₚ process <$> inputs ∧ (calls s).*2 ≡ₚ inputs).
Proof.
  intros Hn. apply returns_with_intro; [lia|lia|intros; lia|].
  intros s Hreach Hret. split.
  - apply (returned_outputs numOfRoutines inputs process); (done || lia).
  - apply (returned_calls numOfRoutines inputs process); (done || lia).
Qed.

(** C4. With one worker the result is [process] mapped over the inputs,
    in input order; hence two runs on the same inputs return the same
    sequence. *)
Theorem Execute_single_worker_order inputs process :
  returns_with 1 inputs process (λ s, outputs s = process <$> inputs) ∧
  (∀ s1 s2,
     reachable 1 inputs process s1 → main s1 = MRet →
     reachable 1 inputs process s2 → main s2 = MRet →
     outputs s1 = outputs s2).
Proof.
  assert (∀ s, reachable 1 inputs process s → main s = MRet →
               outputs s = process <$> inputs) as Hord.
  { intros s Hreach Hret.
    apply (returned_in_order 1 inputs process); (done || lia). }
  split.
  - apply returns_with_intro; [lia|lia|intros; lia|done].
  - intros s1 s2 Hr1 Hm1 Hr2 Hm2.
    by rewrite (Hord s1), (Hord s2).
Qed.

(** C5, amended.  On the empty input, every worker count from 1 to
    [2^31 - 1] returns the empty sequence, and [process] is never
    invoked during the run. *)
Theorem Execute_no_inputs numOfRoutines process :
  (1 ≤ numOfRoutines ≤ 2147483647)%Z →
  returns_with numOfRoutines [] process (λ s, outputs s = []) ∧
  (∀ s, reachable numOfRoutines [] process s → calls s = []).
Proof.
  intros Hn. split.
  - apply returns_with_intro; [lia|lia|intros; lia|].
    intros s Hreach Hret. apply Permutation_nil_r.
    apply (returned_outputs numOfRoutines [] process); (done || lia).
  - intros s Hreach.
    pose proof (di_calls _ _ _ _
      (data_inv_reachable numOfRoutines [] process
         ltac:(lia) ltac:(lia) ltac:(intros; lia) s Hreach)) as Hc.
    rewrite take_nil in Hc. apply Permutation_nil_r in Hc.
    apply app_eq_nil in Hc as [Hc _]. by apply fmap_nil_inv in Hc.
Qed.


(** C8, amended.  [process] being a function, the multiset of outputs
    does not depend on the worker count, from 1 to [2^31 - 1]: both
    calls return, and any result returned with [n1] workers is a
    permutation of any result returned with [n2] workers. *)
Theorem Execute_worker_count_irrelevant n1 n2 inputs process :
  (1 ≤ n1 ≤ 2147483647)%Z → (1 ≤ n2 ≤ 2147483647)%Z →
  returns_with n1 inputs process (λ s1,
    returns_with n2 inputs process (λ s2, outputs s1 ≡ₚ outputs s2)).
Proof.
  intros Hn1 Hn2.
  apply returns_with_intro; [lia|lia|intros; lia|]. intros s1 Hr1 Hm1.
  apply returns_with_intro; [lia|lia|intros; lia|]. intros s2 Hr2 Hm2.
  rewrite (returned_outputs n1 inputs process) by (done || lia).
  by rewrite (returned_outputs n2 inputs process) by (done || lia).
Qed.

(** C9, amended.  For every worker count from 1 to [2^31 - 1] the call
    returns after
    finitely many steps under every schedule, without blocking; when it
    returns every worker has run [wg.Done()], every input channel and
    the output channel are closed, the WaitGroup counter is zero, and no
    goroutine of the call can take another step. *)
Theorem Execute_terminates numOfRoutines inputs process :
  (1 ≤ numOfRoutines ≤ 2147483647)%Z →
  returns_with numOfRoutines inputs process
    (λ s, (∀ w, w < Z.to_nat numOfRoutines → workers s !! w = Some WDone) ∧
          (∀ k, k < Z.to_nat numOfRoutines → inputChannels s !! k = Some Closed) ∧
          outputChannel s = Closed ∧ wg s = 0%Z ∧
          ∀ a, step numOfRoutines inputs process a s = None).
Proof.
  intros Hn. apply returns_with_intro; [lia|lia|intros; lia|].
  intros s Hreach Hret.
  pose proof (ctrl_inv_reachable numOfRoutines inputs process
                ltac:(lia) ltac:(lia) ltac:(intros; lia) s Hreach) as Hinv.
  pose proof (ci_waiter _ _ _ Hinv) as Ht.
  pose proof (ci_main _ _ _ Hinv) as Hm.
  unfold main_ok, waiter_ok in *. rewrite Hret in Hm. destruct Hm as [_ Hm].
  rewrite Hm in Ht. destruct Ht as [Hoc Hwg].
  repeat split; try done.
  - intros w Hw.
    destruct (lookup_lt_is_Some_2 (workers s) w) as [ws Hws];
      [by rewrite (ci_lenw _ _ _ Hinv)|].
    rewrite Hws. f_equal.
    by apply (returned_workers_done numOfRoutines inputs s w).
  - intros k Hk.
    by apply (returned_all_closed numOfRoutines inputs).
  - intros a.
    apply (returned_quiescent numOfRoutines inputs process); (done || lia).
Qed.

(** C10. With zero workers and no input the call returns the empty
    sequence under every schedule; no run panics and [process] is never
    invoked. *)
Theorem Execute_zero_workers_no_inputs process :
  returns_with 0 [] process (λ s, outputs s = []) ∧
  (∀ s, reachable 0 [] process s → panicked s = None ∧ calls s = []).
Proof.
  split.
  - apply returns_with_intro; [lia|lia|done|].
    intros s Hreach Hret. apply Permutation_nil_r.
    apply (returned_outputs 0 [] process); (done || lia).
  - intros s Hreach. split.
    + apply (ci_panic 0 [] s), (ctrl_inv_reachable 0 [] process); (done || lia).
    + apply (zero_count_inv 0 [] process); done.
Qed.

End Claims.

(** ** Concrete scenarios *)

Section Scenarios.

Context {TypeOut : Type}.

(** The fair scheduler on the spec's scenario [Execute(3, [1..5], x*x)]. *)
Example Execute_squares_fair :
  let s := run 3 [1; 2; 3; 4; 5]%Z sq (rounds 3 20) (init 3) in
  main s = MRet ∧ outputs s = [1; 4; 9; 16; 25]%Z ∧ panicked s = None.
Proof. vm_compute. done. Qed.

(** Two workers, the second one delivering first: the result is not in
    input order. *)
Example Execute_two_workers_reordered :
  let sched := [AMain; AMain; AMain; AMain; AMain; ADist; ADist;
                AWorker 0; AWorker 1; AWorker 1; AWorker 0] ++ rounds 2 8 in
  let s := run 2 [1; 2]%Z double sched (init 2) in
  main s = MRet ∧ outputs s = [4; 2]%Z ∧ panicked s = None.
Proof. vm_compute. done. Qed.

(** C6, amended.  With more workers than inputs, and at most [2^31 - 1]
    of them, [Execute] returns under every schedule, the result is a
    permutation of the images of the inputs, the workers from
    [len(inputs)] on have invoked [process] zero times, and no run
    panics.  In particular, with ten workers and the inputs 1, 2, 3 the
    result is a permutation of 2, 4, 6. *)
Theorem Execute_more_workers_than_inputs :
  (∀ (TypeIn TypeOut : Type) (numOfRoutines : Z) (inputs : list TypeIn)
     (process : TypeIn → TypeOut),
     (Z.of_nat (length inputs) < numOfRoutines ≤ 2147483647)%Z →
     returns_with numOfRoutines inputs process
       (λ s, outputs s ≡ₚ process <$> inputs ∧
             ∀ w, length inputs ≤ w < Z.to_nat numOfRoutines →
                  calls_of w (calls s) = []) ∧
     (∀ s, reachable numOfRoutines inputs process s → panicked s = None)) ∧
  returns_with 10 [1; 2; 3]%Z double (λ s, outputs s ≡ₚ [2; 4; 6]%Z) ∧
  (∀ s, reachable 10 [1; 2; 3]%Z double s → panicked s = None).
Proof.
  split; [|split].
  - intros TypeIn TypeOut' numOfRoutines inputs process Hn. split.
    + apply returns_with_intro; [lia|lia|intros; lia|].
      intros s Hreach Hret. split.
      * apply (returned_outputs numOfRoutines inputs process); (done || lia).
      * intros w Hw. apply length_zero_iff_nil.
        rewrite (returned_fifo numOfRoutines inputs process) by (done || lia).
        rewrite assigned_length by lia.
        rewrite Nat.div_small, Nat.mod_small by lia.
        by rewrite decide_False by lia.
    + intros s Hreach.
      apply (ci_panic numOfRoutines inputs s),
        (ctrl_inv_reachable numOfRoutines inputs process); (done || lia).
  - apply returns_with_intro; [lia|lia|intros; lia|].
    intros s Hreach Hret.
    apply (returned_outputs 10 [1; 2; 3]%Z double); (done || lia).
  - intros s Hreach.
    apply (ci_panic 10 [1; 2; 3]%Z s), (ctrl_inv_reachable 10 _ double);
      (done || lia).
Qed.

(** ** Worker counts 0 and -1 *)

Ltac explore :=
  repeat match goal with
  | |- inevitably _ _ _ _ _ =>
      first
        [ apply inev_now; reflexivity
        | apply inev_later;
          [ first [ exists AMain; eexists; reflexivity
                  | exists ADist; eexists; reflexivity
                  | exists AWaiter; eexists; reflexivity ]
          | let a := fresh "a" in
            let s' := fresh "s'" in
            let H := fresh "H" in
            intros a s' H; destruct a; vm_compute in H; simplify_eq ] ]
  end.

(** C3, as stated, fails: with a worker count of 0 and the inputs
    1, 2, 3 there is a schedule under which the caller is handed the
    empty sequence as a normal result. *)
Lemma Execute_zero_workers_can_return :
  ¬ (reports_failure 0 [1; 2; 3]%Z double ∧
     reports_failure (-1) [1; 2; 3]%Z double ∧
     (∀ s, reachable 0 [1; 2; 3]%Z double s → calls s = []) ∧
     (∀ s, reachable (-1) [1; 2; 3]%Z double s → calls s = [])).
Proof.
  intros ([_ Hnever] & _).
  apply (Hnever (run 0 [1; 2; 3]%Z double
                   [AMain; AMain; AMain; AWaiter; AWaiter; AMain] (init 0))).
  - apply run_reachable, reach_init.
  - reflexivity.
Qed.

(** C3, amended.  With a worker count of -1 the call panics in the
    caller while allocating the channel slice and never returns.  With
    a worker count of 0 and the inputs 1, 2, 3 the only panic is the
    distributor's integer division by zero, which every run reaches;
    the caller may be handed the empty sequence before that.  In both
    cases [process] is never invoked. *)
Theorem Execute_invalid_count (process : Z → TypeOut) :
  (∀ s, reachable (-1) [1; 2; 3]%Z process s →
     panicked s = Some PanicMakeSliceLen ∧ main s ≠ MRet ∧ calls s = []) ∧
  (∀ s, reachable 0 [1; 2; 3]%Z process s →
     calls s = [] ∧ outputs s = [] ∧
     (panicked s = None ∨ panicked s = Some PanicDivideByZero)) ∧
  (∃ s, reachable 0 [1; 2; 3]%Z process s ∧
        main s = MRet ∧ outputs s = [] ∧ panicked s = None) ∧
  inevitably 0 [1; 2; 3]%Z process
    (λ s, panicked s = Some PanicDivideByZero) (init 0).
Proof.
  split; [|split; [|split]].
  - intros s Hreach.
    by rewrite (negative_count_stuck (-1) _ process s) by (done || lia).
  - intros s Hreach.
    destruct (zero_count_inv 0 _ process s eq_refl Hreach)
      as (_ & _ & Hc & Ho & _ & _ & Hp).
    done.
  - exists (run 0 [1; 2; 3]%Z process
              [AMain; AMain; AMain; AWaiter; AWaiter; AMain] (init 0)).
    split; [apply run_reachable, reach_init|done].
  - explore.
Qed.

End Scenarios.

(** ** Worker counts beyond the limit of [make]

    The claims as first stated, for every worker count of at least 1,
    fail at [2^62] workers: [make] panics in the caller, so the call
    does not return. *)

Lemma Execute_length_beyond_limit :
  ¬ returns_with 4611686018427387904 [1; 2; 3]%Z sq
      (λ s, length (outputs s) = length [1; 2; 3]%Z).
Proof. apply make_panic_never_returns. by right. Qed.

Lemma Execute_multiset_beyond_limit :
  ¬ returns_with 4611686018427387904 [1; 2; 3]%Z sq
      (λ s, outputs s ≡ₚ sq <$> [1; 2; 3]%Z ∧ (calls s).*2 ≡ₚ [1; 2; 3]%Z).
Proof. apply make_panic_never_returns. by right. Qed.

Lemma Execute_no_inputs_beyond_limit :
  ¬ (returns_with 4611686018427387904 [] sq (λ s, outputs s = []) ∧
     (∀ s, reachable 4611686018427387904 [] sq s → calls s = [])).
Proof. intros [Hret _]. revert Hret. apply make_panic_never_returns. by right. Qed.

Lemma Execute_more_workers_beyond_limit :
  (Z.of_nat (length [1; 2; 3]%Z) < 4611686018427387904)%Z ∧
  ¬ returns_with 4611686018427387904 [1; 2; 3]%Z double
      (λ s, outputs s ≡ₚ [2; 4; 6]%Z).
Proof. split; [done|]. apply make_panic_never_returns. by right. Qed.


Lemma Execute_worker_count_beyond_limit :
  ¬ returns_with 4611686018427387904 [1; 2; 3]%Z sq (λ s1,
      returns_with 3 [1; 2; 3]%Z sq (λ s2, outputs s1 ≡ₚ outputs s2)).
Proof. apply make_panic_never_returns. by right. Qed.

Lemma Execute_terminates_beyond_limit :
  ¬ returns_with 4611686018427387904 [1; 2; 3]%Z sq
      (λ s, (∀ w, w < Z.to_nat 4611686018427387904 →
                  workers s !! w = Some WDone) ∧
            (∀ k, k < Z.to_nat 4611686018427387904 →
                  inputChannels s !! k = Some Closed) ∧
            outputChannel s = Closed ∧ wg s = 0%Z ∧
            ∀ a, step 4611686018427387904 [1; 2; 3]%Z sq a s = None).
Proof. apply make_panic_never_returns. by right. Qed.

(** ** The general claims at the spec's scenario *)

Lemma Execute_length_witness :
  (1 ≤ 3 ≤ 2147483647)%Z ∧
  returns_with 3 [1; 2; 3; 4; 5]%Z sq
    (λ s, length (outputs s) = length [1; 2; 3; 4; 5]%Z).
Proof.
  split; [lia|]. apply (Execute_length 3 [1; 2; 3; 4; 5]%Z sq). lia.
Defined.

Lemma Execute_multiset_witness :
  (1 ≤ 3 ≤ 2147483647)%Z ∧
  returns_with 3 [1; 2; 3; 4; 5]%Z sq
    (λ s, outputs s ≡ₚ sq <$> [1; 2; 3; 4; 5]%Z ∧
          (calls s).*2 ≡ₚ [1; 2; 3; 4; 5]%Z).
Proof.
  split; [lia|]. apply (Execute_multiset 3 [1; 2; 3; 4; 5]%Z sq). lia.
Defined.

Lemma Execute_no_inputs_witness :
  (1 ≤ 4 ≤ 2147483647)%Z ∧
  returns_with 4 [] double (λ s, outputs s = []) ∧
  (∀ s, reachable 4 [] double s → calls s = []).
Proof.
  split; [lia|]. apply (Execute_no_inputs 4 double). lia.
Defined.


Lemma Execute_worker_count_irrelevant_witness :
  (1 ≤ 1 ≤ 2147483647)%Z ∧ (1 ≤ 3 ≤ 2147483647)%Z ∧
  returns_with 1 [1; 2; 3; 4; 5]%Z sq (λ s1,
    returns_with 3 [1; 2; 3; 4; 5]%Z sq (λ s2, outputs s1 ≡ₚ outputs s2)).
Proof.
  split; [lia|]. split; [lia|].
  apply (Execute_worker_count_irrelevant 1 3 [1; 2; 3; 4; 5]%Z sq); lia.
Defined.

Lemma Execute_terminates_witness :
  (1 ≤ 3 ≤ 2147483647)%Z ∧
  returns_with 3 [1; 2; 3; 4; 5]%Z sq
    (λ s, (∀ w, w < 3 → workers s !! w = Some WDone) ∧
          (∀ k, k < 3 → inputChannels s !! k = Some Closed) ∧
          outputChannel s = Closed ∧ wg s = 0%Z ∧
          ∀ a, step 3 [1; 2; 3; 4; 5]%Z sq a s = None).
Proof.
  split; [lia|]. apply (Execute_terminates 3 [1; 2; 3; 4; 5]%Z sq). lia.
Defined.

(** The inputs assigned to each of three workers out of 1..5. *)
Example assigned_three_workers :
  assigned 3 [1; 2; 3; 4; 5]%Z 0 5 = [1; 4]%Z ∧
  assigned 3 [1; 2; 3; 4; 5]%Z 1 5 = [2; 5]%Z ∧
  assigned 3 [1; 2; 3; 4; 5]%Z 2 5 = [3]%Z.
Proof. done. Qed.

(** * Further properties of [Execute] *)

Section Further.

Context {TypeIn TypeOut : Type}.
Implicit Types (numOfRoutines : Z) (inputs : list TypeIn).
Implicit Types (process : TypeIn → TypeOut).

(** X1. With 1 to [2^31 - 1] workers no schedule leads to a panic: the code
    never sends on a closed channel, never closes a channel twice, never
    indexes [inputChannels] out of range and never drives the WaitGroup
    counter below zero. *)
Theorem Execute_never_panics numOfRoutines inputs process s :
  (1 ≤ numOfRoutines ≤ 2147483647)%Z →
  reachable numOfRoutines inputs process s → panicked s = None.
Proof.
  intros Hn Hreach.
  apply (ci_panic numOfRoutines inputs s),
    (ctrl_inv_reachable numOfRoutines inputs process); (done || lia).
Qed.

Ltac explore_runs :=
  repeat match goal with
  | |- inevitably _ _ _ _ _ =>
      first
        [ apply inev_now; reflexivity
        | apply inev_later;
          [ first [ exists AMain; eexists; reflexivity
                  | exists ADist; eexists; reflexivity
                  | exists AWaiter; eexists; reflexivity ]
          | let a := fresh "a" in
            let s' := fresh "s'" in
            let H := fresh "H" in
            intros a s' H; destruct a; vm_compute in H; simplify_eq ] ]
  end.

(** X3. With a worker count of 0 and at least one input, every run ends
    in the distributor's integer division by zero and no other panic
    occurs; [process] is never invoked; the caller may be handed the
    empty sequence before the panic, and nothing else. *)
Theorem Execute_zero_workers_with_inputs inputs process :
  inputs ≠ [] →
  inevitably 0 inputs process
    (λ s, panicked s = Some PanicDivideByZero) (init 0) ∧
  (∀ s, reachable 0 inputs process s →
     calls s = [] ∧ outputs s = [] ∧
     (panicked s = None ∨ panicked s = Some PanicDivideByZero)) ∧
  (∃ s, reachable 0 inputs process s ∧ main s = MRet ∧ panicked s = None).
Proof.
  intros Hne. destruct inputs as [|x inputs]; [done|].
  split; [|split].
  - explore_runs.
  - intros s Hreach.
    destruct (zero_count_inv 0 _ process s eq_refl Hreach)
      as (_ & _ & Hc & Ho & _ & _ & Hp).
    done.
  - exists (run 0 (x :: inputs) process
              [AMain; AMain; AMain; AWaiter; AWaiter; AMain] (init 0)).
    split; [apply run_reachable, reach_init|done].
Qed.


(** X5. The results of one worker keep their order.  For 1 to
    [2^31 - 1] workers the call returns and the returned
    sequence can be labelled with worker numbers so that, for every
    worker, the results labelled with it are, in order, the images of
    the inputs at its positions. *)
Theorem Execute_interleaves_workers numOfRoutines inputs process :
  (1 ≤ numOfRoutines ≤ 2147483647)%Z →
  returns_with numOfRoutines inputs process
    (λ s, ∃ tagged : list (nat * TypeOut),
            tagged.*2 = outputs s ∧
            Forall (λ p, p.1 < Z.to_nat numOfRoutines) tagged ∧
            ∀ w, w < Z.to_nat numOfRoutines →
                 outputs_of w tagged
                 = process <$> assigned numOfRoutines inputs w (length inputs)).
Proof.
  intros Hn. apply returns_with_intro; [lia|lia|intros; lia|].
  intros s Hreach Hret.
  apply (returned_interleaving numOfRoutines inputs process); (done || lia).
Qed.

(** X6. Round-robin balances the load.  For 1 to [2^31 - 1] workers
    the call returns, and when it returns, worker
    [w] has invoked [process] [M / N] times, plus once if [w < M mod N],
    for [M] inputs and [N] workers; with more workers than inputs the
    workers from [M] on have invoked it zero times. *)
Theorem Execute_worker_share numOfRoutines inputs process :
  (1 ≤ numOfRoutines ≤ 2147483647)%Z →
  returns_with numOfRoutines inputs process
    (λ s, ∀ w, w < Z.to_nat numOfRoutines →
               length (calls_of w (calls s))
               = length inputs / Z.to_nat numOfRoutines
                 + (if decide (w < length inputs mod Z.to_nat numOfRoutines)
                    then 1 else 0)).
Proof.
  intros Hn. apply returns_with_intro; [lia|lia|intros; lia|].
  intros s Hreach Hret w Hw.
  rewrite (returned_fifo numOfRoutines inputs process) by (done || lia).
  apply assigned_length; (done || lia).
Qed.

(** X7. The completion barrier.  With at least one worker, whose count
    fits the WaitGroup counter or makes the call panic before it starts
    a goroutine, once the output channel is closed every worker has run
    [wg.Done()] and every result is already in [outputs]: closing never
    overtakes a result.  (A count that wraps the 32-bit counter to zero
    is excluded: see X10 below.) *)
Theorem Execute_close_after_results numOfRoutines inputs process s :
  (1 ≤ numOfRoutines)%Z →
  (numOfRoutines ≤ 2147483647)%Z ∨
    panicked (init (TypeIn:=TypeIn) (TypeOut:=TypeOut) numOfRoutines) ≠ None →
  reachable numOfRoutines inputs process s →
  outputChannel s = Closed →
  outputs s ≡ₚ process <$> inputs ∧
  (∀ w, w < Z.to_nat numOfRoutines → workers s !! w = Some WDone).
Proof.
  intros Hn [Hmax|Hp] Hreach Hoc.
  2: { rewrite (panicked_init_stuck numOfRoutines inputs process s Hp Hreach)
         in Hoc.
       destruct (init_untouched (TypeIn:=TypeIn) (TypeOut:=TypeOut)
                   numOfRoutines) as (_ & _ & _ & Hopen).
       congruence. }
  pose proof (ctrl_inv_reachable numOfRoutines inputs process
                ltac:(lia) ltac:(lia) ltac:(intros; lia) s Hreach) as Hinv.
  split.
  - apply (closed_outputs_complete numOfRoutines inputs process);
      (done || lia).
  - intros w Hw.
    destruct (lookup_lt_is_Some_2 (workers s) w) as [ws Hws];
      [by rewrite (ci_lenw _ _ _ Hinv)|].
    rewrite Hws. f_equal.
    by apply (closed_workers_done numOfRoutines inputs s w).
Qed.

End Further.

(** X8. Two calls in a row.  Feeding the result of one call to a second
    call returns, as a multiset, the images of the inputs under the
    composed function, whatever the two worker counts from 1 to
    [2^31 - 1]. *)
Theorem Execute_pipeline {A B C : Type} (n1 n2 : Z) (inputs : list A)
    (f : A → B) (g : B → C) :
  (1 ≤ n1 ≤ 2147483647)%Z → (1 ≤ n2 ≤ 2147483647)%Z →
  returns_with n1 inputs f (λ s1,
    returns_with n2 (outputs s1) g (λ s2,
      outputs s2 ≡ₚ (g ∘ f) <$> inputs)).
Proof.
  intros Hn1 Hn2.
  apply returns_with_intro; [lia|lia|intros; lia|]. intros s1 Hr1 Hm1.
  apply returns_with_intro; [lia|lia|intros; lia|]. intros s2 Hr2 Hm2.
  rewrite (returned_outputs n2 (outputs s1) g) by (done || lia).
  rewrite (returned_outputs n1 inputs f) by (done || lia).
  by rewrite <-list_fmap_compose.
Qed.

(** ** The further properties at concrete inputs *)

Lemma Execute_never_panics_witness :
  (1 ≤ 3 ≤ 2147483647)%Z ∧
  panicked (run 3 [1; 2; 3; 4; 5]%Z sq (rounds 3 5) (init 3)) = None.
Proof.
  split; [lia|].
  apply (Execute_never_panics 3 [1; 2; 3; 4; 5]%Z sq); [lia|].
  apply run_reachable, reach_init.
Defined.

Lemma Execute_zero_workers_with_inputs_witness :
  [7]%Z ≠ [] ∧
  inevitably 0 [7]%Z sq (λ s, panicked s = Some PanicDivideByZero) (init 0) ∧
  (∀ s, reachable 0 [7]%Z sq s →
     calls s = [] ∧ outputs s = [] ∧
     (panicked s = None ∨ panicked s = Some PanicDivideByZero)) ∧
  (∃ s, reachable 0 [7]%Z sq s ∧ main s = MRet ∧ panicked s = None).
Proof.
  split; [done|]. apply (Execute_zero_workers_with_inputs [7]%Z sq). done.
Defined.

(** Three inputs handed off, one invocation, nothing collected yet:
    the distributor is three items, the worker count, ahead. *)
Example Execute_three_in_flight :
  let s := run 3 [1; 2; 3; 4; 5]%Z sq
             [AMain; AMain; AMain; AMain; AMain; AMain;
              ADist; ADist; ADist; AWorker 0] (init 3) in
  length (outputs s) = 0 ∧ length (calls s) = 1 ∧ length (delivered s) = 3 ∧
  step 3 [1; 2; 3; 4; 5]%Z sq ADist s = None.
Proof. vm_compute. done. Qed.


Lemma Execute_interleaves_workers_witness :
  (1 ≤ 3 ≤ 2147483647)%Z ∧
  returns_with 3 [1; 2; 3; 4; 5]%Z sq
    (λ s, ∃ tagged : list (nat * Z),
            tagged.*2 = outputs s ∧
            Forall (λ p, p.1 < 3) tagged ∧
            ∀ w, w < 3 →
                 outputs_of w tagged
                 = sq <$> assigned 3 [1; 2; 3; 4; 5]%Z w 5).
Proof.
  split; [lia|].
  apply (Execute_interleaves_workers 3 [1; 2; 3; 4; 5]%Z sq). lia.
Defined.

Lemma Execute_worker_share_witness :
  (1 ≤ 3 ≤ 2147483647)%Z ∧
  returns_with 3 [1; 2; 3; 4; 5]%Z sq
    (λ s, ∀ w, w < 3 →
               length (calls_of w (calls s))
               = 1 + (if decide (w < 2) then 1 else 0)).
Proof.
  split; [lia|].
  apply (Execute_worker_share 3 [1; 2; 3; 4; 5]%Z sq). lia.
Defined.

Lemma Execute_close_after_results_witness :
  (1 ≤ 3)%Z ∧
  ((3 ≤ 2147483647)%Z ∨ panicked (init (TypeIn:=Z) (TypeOut:=Z) 3) ≠ None) ∧
  outputChannel (run 3 [1; 2; 3; 4; 5]%Z sq (rounds 3 20) (init 3)) = Closed ∧
  outputs (run 3 [1; 2; 3; 4; 5]%Z sq (rounds 3 20) (init 3))
  ≡ₚ sq <$> [1; 2; 3; 4; 5]%Z ∧
  (∀ w, w < 3 →
     workers (run 3 [1; 2; 3; 4; 5]%Z sq (rounds 3 20) (init 3)) !! w
     = Some WDone).
Proof.
  split; [lia|]. split; [left; lia|]. split; [reflexivity|].
  apply (Execute_close_after_results 3 [1; 2; 3; 4; 5]%Z sq);
    [lia|left; lia| |reflexivity].
  apply run_reachable, reach_init.
Defined.

Lemma Execute_pipeline_witness :
  (1 ≤ 2 ≤ 2147483647)%Z ∧ (1 ≤ 3 ≤ 2147483647)%Z ∧
  returns_with 2 [1; 2; 3]%Z double (λ s1,
    returns_with 3 (outputs s1) sq (λ s2,
      outputs s2 ≡ₚ (sq ∘ double) <$> [1; 2; 3]%Z)).
Proof.
  split; [lia|]. split; [lia|].
  apply (Execute_pipeline 2 3 [1; 2; 3]%Z double sq); lia.
Defined.

(** X10. A worker count that wraps the WaitGroup counter.  [2^32]
    workers pass [make], and [wg.Add(2^32)] leaves the 32-bit counter
    at zero: there is a schedule under which the output channel is
    closed and the caller is handed the empty sequence although no input
    has been handed off. *)
Theorem Execute_counter_wrap :
  ∃ s, reachable 4294967296 [1; 2; 3]%Z sq s ∧
       main s = MRet ∧ panicked s = None ∧
       outputChannel s = Closed ∧ outputs s = [] ∧ delivered s = [].
Proof.
  destruct (wrap_returns_empty (TypeOut:=Z) 4294967296 [1; 2; 3]%Z sq)
    as (s & Hreach & Hret & Hp & Hoc & Ho & Hd & _).
  - unfold maxChanSliceLen. lia.
  - reflexivity.
  - exists s. repeat split; assumption.
Qed.
